(** * ss.lv web scraper: a shallow embedding of [web_srcaper.py]

    The development follows the source file:

    - [Py]: the Python values and primitives the scraper relies on
      (exceptions, list indexing, [str.split(sep, 1)], [re.search] with a
      literal pattern, [range]);
    - [Bs4]: the part of BeautifulSoup's document tree the scraper touches
      ([find_all], [find], attribute access and [str] of a tag);
    - the scraper itself: [find_single_page_urls], [get_msg_table_info],
      [write_line] and [main], in a state-and-exception monad over the
      file system, with the network and the parser as parameters;
    - the vocabulary of the properties and some sample documents;
    - facts about the leftmost cut of a string, the two loops of link
      discovery, the carving of a cell and the loops of [main];
    - the properties of the specification;
    - further properties of the same functions, and of
      [get_last_file_name] of [file_downloader.py], whose listing of the
      bucket is a parameter.

    Strings are byte strings: every separator the scraper searches for is
    ASCII, so the UTF-8 encoding of non-ASCII text passes through
    unchanged; the order of attribute names is the order of their bytes,
    which is the order of their code points, and the whitespace between
    class tokens is recognised on its encoding.  The debug [print] calls of [main] write to standard output
    only and are left out. *)

From Stdlib Require Import Ascii ZArith Lia.
From stdpp Require Import base option list gmap strings.

Local Open Scope Z_scope.
Local Open Scope nat_scope.

#[local] Set Warnings "-clear-no-such-hyp".

(* ================================================================== *)
(** ** Python primitives *)
(* ================================================================== *)

Module Py.

(** The exceptions that can escape the scraper's functions. *)
Inductive exn : Set :=
  | IndexError         (* list index out of range *)
  | AttributeError     (* attribute access on [None] *)
  | RequestException.  (* raised by [requests.get] *)

Inductive result (A : Type) : Type :=
  | Ok (a : A)
  | Raise (e : exn).
Arguments Ok {A} a.
Arguments Raise {A} e.

#[global] Instance exn_eq_dec : EqDecision exn.
Proof. solve_decision. Defined.

Definition is_ok {A} (r : result A) : bool :=
  match r with Ok _ => true | Raise _ => false end.

(** [l[i]] for an index that is known to be non-negative (every index in
    the scraper is a [range] variable or a literal). *)
Definition getitem {A} (l : list A) (i : nat) : result A :=
  match l !! i with
  | Some x => Ok x
  | None => Raise IndexError
  end.

(** [range(n)]: empty when [n <= 0]. *)
Definition range (n : Z) : list nat := seq 0 (Z.to_nat n).

(** [len(l)] as a Python integer. *)
Definition len {A} (l : list A) : Z := Z.of_nat (length l).

(** [strip_prefix p s] is [Some r] when [s = p ++ r]. *)
Fixpoint strip_prefix (p s : string) : option string :=
  match p with
  | EmptyString => Some s
  | String a p' =>
      match s with
      | EmptyString => None
      | String b s' => if Ascii.eqb a b then strip_prefix p' s' else None
      end
  end.

(** [partition1 sep s] cuts [s] at the leftmost occurrence of [sep]. *)
Fixpoint partition1 (sep s : string) : option (string * string) :=
  match strip_prefix sep s with
  | Some r => Some (EmptyString, r)
  | None =>
      match s with
      | EmptyString => None
      | String c s' =>
          match partition1 sep s' with
          | Some (a, b) => Some (String c a, b)
          | None => None
          end
      end
  end.

(** [s.split(sep, 1)]: at most one cut, at the leftmost occurrence. *)
Definition split1 (s sep : string) : list string :=
  match partition1 sep s with
  | Some (a, b) => [a; b]
  | None => [s]
  end.

(** [re.search(pat, s)] for a pattern without metacharacters, as a
    truth value: does [pat] occur in [s]? *)
Definition re_search (pat s : string) : bool :=
  match partition1 pat s with Some _ => true | None => false end.

(** [x not in l] on lists of strings. *)
Definition not_in (x : string) (l : list string) : bool :=
  bool_decide (x ∉ l).

End Py.
Export Py.

(* ================================================================== *)
(** ** The BeautifulSoup document tree *)
(* ================================================================== *)

Module Bs4.

(** The strings of a document that are not text: they are written back
    as they are, between their delimiters. *)
Inductive markup_kind : Set :=
  | Comment | CData | ProcessingInstruction | Declaration | Doctype.

(** A parsed document: text nodes, comments and the like, and tags with
    their attributes in the order of the markup (a Python dict: attribute
    names are distinct); [str] writes them back in the order of their
    names.  Attribute values are kept as the strings of the markup; the
    value of [class] is read as a whitespace-separated list of tokens, as
    the library does. *)
#[local] Set Warnings "-register-all".
Inductive node : Type :=
  | NavigableString (text : string)
  | PreformattedString (kind : markup_kind) (text : string)
  | Tag (name : string) (attrs : list (string * string)) (contents : list node).

Definition attr (k : string) (n : node) : option string :=
  match n with
  | NavigableString _ | PreformattedString _ _ => None
  | Tag _ attrs _ =>
      match list_find (λ kv : string * string, kv.1 = k) attrs with
      | Some (_, kv) => Some kv.2
      | None => None
      end
  end.

(** All nodes below [n], in document (pre-)order. *)
Fixpoint descendants (n : node) : list node :=
  match n with
  | NavigableString _ | PreformattedString _ _ => []
  | Tag _ _ cs => flat_map (λ c, c :: descendants c) cs
  end.

Definition is_tag (nm : string) (n : node) : bool :=
  match n with
  | NavigableString _ | PreformattedString _ _ => false
  | Tag nm' _ _ => bool_decide (nm' = nm)
  end.

(** The filter [href=True]: the attribute is present, whatever its value. *)
Definition has_attr (k : string) (n : node) : bool :=
  bool_decide (is_Some (attr k n)).

(** [id=v] for a string [v]: the value of the attribute is [v]; a tag
    without the attribute matches the empty string only. *)
Definition attr_eq (k v : string) (n : node) : bool :=
  match attr k n with
  | Some x => bool_decide (x = v)
  | None => bool_decide (v = EmptyString)
  end.

(** The whitespace of Python's [\S+] on text, in UTF-8: the ASCII blanks
    and separators, and the encodings of U+0085, U+00A0, U+1680, U+2000 to
    U+200A, U+2028, U+2029, U+202F, U+205F and U+3000. *)
Definition ascii_space (c : ascii) : bool :=
  let n := nat_of_ascii c in
  (9 <=? n) && (n <=? 13) || (28 <=? n) && (n <=? 32).

Definition general_punctuation_space (c : ascii) : bool :=
  let n := nat_of_ascii c in
  (128 <=? n) && (n <=? 138) || (n =? 168) || (n =? 169) || (n =? 175).

(** The token read so far, last character first. *)
Definition flush (cur : string) : list string :=
  match cur with
  | EmptyString => []
  | String _ _ => [String.rev cur]
  end.

Fixpoint nonwhitespace_go (cur s : string) : list string :=
  match s with
  | EmptyString => flush cur
  | String c s1 =>
      let keep := nonwhitespace_go (String c cur) s1 in
      if ascii_space c then flush cur ++ nonwhitespace_go EmptyString s1
      else
        match s1 with
        | String d s2 =>
            if Ascii.eqb c "194" && (Ascii.eqb d "133" || Ascii.eqb d "160")
            then flush cur ++ nonwhitespace_go EmptyString s2
            else
              match s2 with
              | String e s3 =>
                  if Ascii.eqb c "225" && Ascii.eqb d "154" && Ascii.eqb e "128"
                     || Ascii.eqb c "226" && Ascii.eqb d "128"
                        && general_punctuation_space e
                     || Ascii.eqb c "226" && Ascii.eqb d "129" && Ascii.eqb e "159"
                     || Ascii.eqb c "227" && Ascii.eqb d "128" && Ascii.eqb e "128"
                  then flush cur ++ nonwhitespace_go EmptyString s3
                  else keep
              | EmptyString => keep
              end
        | EmptyString => keep
        end
  end.

(** [nonwhitespace_re.findall(value)]: the maximal runs without
    whitespace. *)
Definition nonwhitespace (value : string) : list string :=
  nonwhitespace_go EmptyString value.

Definition class_tokens (n : node) : option (list string) :=
  nonwhitespace <$> attr "class" n.

Fixpoint join (sep : string) (l : list string) : string :=
  match l with
  | [] => EmptyString
  | [x] => x
  | x :: l' => x +:+ sep +:+ join sep l'
  end.

(** The filter on the class attribute for a string [c]: [c] is one of the
    class tokens, or the whole (normalised) class value; a tag without
    class matches the empty string only. *)
Definition has_class (c : string) (n : node) : bool :=
  match class_tokens n with
  | None => bool_decide (c = EmptyString)
  | Some toks => bool_decide (c ∈ toks) || bool_decide (join " " toks = c)
  end.

(** [n.find_all(name, ...)]: every matching descendant, in document order. *)
Definition find_all (nm : string) (p : node → bool) (n : node) : list node :=
  filter (λ d, is_tag nm d && p d = true) (descendants n).

(** [n.find(name, ...)]: the first match, or [None]. *)
Definition find (nm : string) (p : node → bool) (n : node) : option node :=
  head (find_all nm p n).

(** *** [str(tag)] *)

(** The double quote character and the two separators of the field
    carving. *)
Definition dquote : ascii := "034".
Definition quote_gt : string := String dquote ">".   (* double quote, then > *)
Definition lt_slash : string := "</".

(** Text and attribute values are written with [&], [<] and [>] replaced
    by entities. *)
Fixpoint substitute_xml (s : string) : string :=
  match s with
  | EmptyString => EmptyString
  | String c s' =>
      (if Ascii.eqb c "&" then "&amp;"
       else if Ascii.eqb c "<" then "&lt;"
       else if Ascii.eqb c ">" then "&gt;"
       else String c EmptyString) +:+ substitute_xml s'
  end.

Fixpoint replace_char (c : ascii) (by_ : string) (s : string) : string :=
  match s with
  | EmptyString => EmptyString
  | String d s' =>
      (if Ascii.eqb c d then by_ else String d EmptyString)
        +:+ replace_char c by_ s'
  end.

Fixpoint has_char (c : ascii) (s : string) : bool :=
  match s with
  | EmptyString => false
  | String d s' => Ascii.eqb c d || has_char c s'
  end.

(** A value is written between double quotes, unless it contains a double
    quote and no single quote: then between single quotes.  With both
    kinds inside, the double quotes become [&quot;]. *)
Definition quoted_attribute_value (v : string) : string :=
  if has_char dquote v then
    if has_char "'" v
    then String dquote (replace_char dquote "&quot;" v +:+ String dquote EmptyString)
    else "'" +:+ v +:+ "'"
  else String dquote (v +:+ String dquote EmptyString).

(** Attributes whose value the tree holds as a list of tokens; they are
    written back joined by single spaces. *)
Definition cdata_list_attribute (tag k : string) : bool :=
  bool_decide (k ∈ ["class"; "accesskey"; "dropzone"])
  || bool_decide ((tag, k) ∈
       [("a", "rel"); ("a", "rev"); ("link", "rel"); ("link", "rev");
        ("td", "headers"); ("th", "headers"); ("form", "accept-charset");
        ("object", "archive"); ("area", "rel"); ("icon", "sizes");
        ("iframe", "sandbox"); ("output", "for")]).

Definition attribute_value (tag : string) (kv : string * string) : string :=
  substitute_xml (if cdata_list_attribute tag kv.1
                  then join " " (nonwhitespace kv.2) else kv.2).

Definition attribute_str (tag : string) (kv : string * string) : string :=
  " " +:+ kv.1 +:+ "=" +:+ quoted_attribute_value (attribute_value tag kv).

Fixpoint concat_str (l : list string) : string :=
  match l with
  | [] => EmptyString
  | x :: l' => x +:+ concat_str l'
  end.

(** The attributes are written sorted by name ([sorted] over the items of
    the dict: the names are distinct, so the values are never compared). *)
Fixpoint insert_attribute (kv : string * string) (l : list (string * string))
  : list (string * string) :=
  match l with
  | [] => [kv]
  | kv' :: l' =>
      if String.leb kv.1 kv'.1 then kv :: l else kv' :: insert_attribute kv l'
  end.

Definition sorted_attributes (attrs : list (string * string))
  : list (string * string) :=
  foldr insert_attribute [] attrs.

Definition attributes_str (tag : string) (attrs : list (string * string)) : string :=
  concat_str (map (attribute_str tag) (sorted_attributes attrs)).

(** Tags written [<br/>] when they have no contents. *)
Definition empty_element_tags : list string :=
  ["area"; "base"; "br"; "col"; "embed"; "hr"; "img"; "input"; "keygen";
   "link"; "menuitem"; "meta"; "param"; "source"; "track"; "wbr";
   "basefont"; "bgsound"; "command"; "frame"; "image"; "isindex";
   "nextid"; "spacer"].

(** Text directly inside these tags is written as it is. *)
Definition cdata_containing_tags : list string := ["script"; "style"].

(** The delimiters of the strings that are not text. *)
Definition prefix_of (kind : markup_kind) : string :=
  match kind with
  | Comment => "<!--"
  | CData => "<![CDATA["
  | ProcessingInstruction => "<?"
  | Declaration => "<?"
  | Doctype => "<!DOCTYPE "
  end.

Definition suffix_of (kind : markup_kind) : string :=
  match kind with
  | Comment => "-->"
  | CData => "]]>"
  | ProcessingInstruction => ">"
  | Declaration => "?>"
  | Doctype => String ">" (String "010" EmptyString)
  end.

(** [str(n)]: the markup of a node. *)
Fixpoint str (n : node) : string :=
  match n with
  | NavigableString t => substitute_xml t
  | PreformattedString kind t => prefix_of kind +:+ t +:+ suffix_of kind
  | Tag name attrs cs =>
      let inner :=
        concat_str (map (λ c,
          match c with
          | NavigableString t =>
              if bool_decide (name ∈ cdata_containing_tags) then t else str c
          | PreformattedString _ _ => str c
          | Tag _ _ _ => str c
          end) cs) in
      match cs with
      | [] =>
          if bool_decide (name ∈ empty_element_tags)
          then "<" +:+ name +:+ attributes_str name attrs +:+ "/>"
          else "<" +:+ name +:+ attributes_str name attrs +:+ ">"
                   +:+ "</" +:+ name +:+ ">"
      | _ :: _ =>
          "<" +:+ name +:+ attributes_str name attrs +:+ ">"
              +:+ inner +:+ "</" +:+ name +:+ ">"
      end
  end.

End Bs4.
Export Bs4.

(* ================================================================== *)
(** ** The scraper *)
(* ================================================================== *)

(** The file system: file name to contents.  A computation reads and
    updates it and either returns a value or raises; what was written
    before an exception stays written. *)
Abbreviation files := (gmap string string).

Definition M (A : Type) : Type := files → result A * files.

Definition ret {A} (a : A) : M A := λ fs, (Ok a, fs).

Definition bind {A B} (c : M A) (k : A → M B) : M B :=
  λ fs, match c fs with
        | (Ok a, fs') => k a fs'
        | (Raise e, fs') => (Raise e, fs')
        end.

(** A computation that does not touch the file system. *)
Definition lift {A} (r : result A) : M A := λ fs, (r, fs).

#[global] Instance M_ret : MRet M := @ret.
#[global] Instance M_bind : MBind M := λ A B k c, bind c k.

(** [for x in l: body(x)] *)
Fixpoint for_in {A} (l : list A) (body : A → M unit) : M unit :=
  match l with
  | [] => ret tt
  | x :: l' => body x ;; for_in l' body
  end.

(** The same loop for a body without file effects, with the loop-carried
    variable passed along. *)
Fixpoint for_acc {A S} (l : list A) (body : S → A → result S) (acc : S) : result S :=
  match l with
  | [] => Ok acc
  | x :: l' =>
      match body acc x with
      | Ok acc' => for_acc l' body acc'
      | Raise e => Raise e
      end
  end.

Definition nl : string := String "010" EmptyString.

Definition flats_ogre : string :=
  "https://www.ss.lv/lv/real-estate/flats/ogre-and-reg/ogre/sell/".
Definition flats_jelgava : string :=
  "https://www.ss.lv/lv/real-estate/flats/jelgava-and-reg/jelgava/sell/".

Definition report_file : string := "Ogre-raw-data-report.txt".
Definition report_header : string :=
  "This is 10 message report about Ogre flats for sale: " +:+ nl.

(** [write_line]: open for appending (the file is created when absent),
    write the text, close.  The working directory is taken to be writable. *)
Definition write_line (text file_name : string) : M unit :=
  λ fs, (Ok tt, <[file_name := default EmptyString (fs !! file_name) +:+ text]> fs).

(** The first loop of [find_single_page_urls]: the absolute links that
    contain the listing marker, duplicates included. *)
Definition add_link (url_list : list string) (a : node) : list string :=
  match attr "href" a with
  | Some href =>
      let one_link := "https://ss.lv" +:+ href in
      if re_search "msg" one_link then url_list ++ [one_link] else url_list
  | None => url_list          (* not reached: the anchors have an href *)
  end.

Definition url_list_of (anchors : list node) : list string :=
  fold_left add_link anchors [].

(** The second loop: keep the first occurrence of each link. *)
Definition keep (valid_urls : list string) (url : string) : list string :=
  if not_in url valid_urls then valid_urls ++ [url] else valid_urls.

Definition valid_urls_of (url_list : list string) : list string :=
  fold_left keep url_list [].

Definition find_single_page_urls (bs_object : node) : list string :=
  valid_urls_of (url_list_of (find_all "a" (has_attr "href") bs_object)).

(** Lines 103 to 105: the text of one cell, carved out of its markup. *)
Definition table_field (tostr : string) : result string :=
  match getitem (split1 tostr quote_gt) 1 with
  | Ok no_front => getitem (split1 no_front lt_slash) 0
  | Raise e => Raise e
  end.

(** The body of the loop of [get_msg_table_info]. *)
Definition add_field (table_fields : list string) (data : node) : result (list string) :=
  let tostr := str data in
  match table_field tostr with
  | Ok name => Ok (table_fields ++ [name])
  | Raise e => Raise e
  end.

Section Network.

(** The network and the parser are the environment of a run:
    [requests_get url] is the body of the response, or [None] when the
    request raises; [BeautifulSoup] is the library's [html.parser] tree
    builder.  The web is taken as it is at the time of the run: the three
    requests that [main] makes for one listing get the same response. *)
Variable requests_get : string → option string.
Variable BeautifulSoup : string → node.

Definition get_bs_object (page_url : string) : result node :=
  match requests_get page_url with
  | Some content => Ok (BeautifulSoup content)
  | None => Raise RequestException
  end.

Definition get_msg_table_info (msg_url td_class : string) : result (list string) :=
  match requests_get msg_url with
  | None => Raise RequestException
  | Some content =>
      let soup := BeautifulSoup content in
      match find "table" (attr_eq "id" "page_main") soup with
      | None => Raise AttributeError        (* [None.findAll] *)
      | Some table =>
          let table_data := find_all "td" (has_class td_class) table in
          for_acc table_data add_field []
      end
  end.

(** The inner loop of [main]: one line per attribute. *)
Definition main_pairs (table_opt_names table_opt_values : list string) : M unit :=
  for_in (range (len table_opt_names - 1)) (λ i,
    name ← lift (getitem table_opt_names i);
    value ← lift (getitem table_opt_values i);
    let text_line := name +:+ "-->" +:+ value +:+ nl in
    write_line text_line report_file).

(** The body of the outer loop of [main], for listing number [i].  The
    inner loop reuses the name [i]; nothing after it reads [i], and the
    outer loop takes its next value from its own range, so the rounds are
    not affected. *)
Definition main_listing (nondup_urls : list string) (i : nat) : M unit :=
  url0 ← lift (getitem nondup_urls i);
  let current_msg_url := url0 +:+ nl in
  url1 ← lift (getitem nondup_urls i);
  table_opt_names ← lift (get_msg_table_info url1 "ads_opt_name");
  url2 ← lift (getitem nondup_urls i);
  table_opt_values ← lift (get_msg_table_info url2 "ads_opt");
  url3 ← lift (getitem nondup_urls i);
  table_price ← lift (get_msg_table_info url3 "ads_price");
  write_line report_header report_file ;;
  write_line current_msg_url report_file ;;
  main_pairs table_opt_names table_opt_values ;;
  price ← lift (getitem table_price 0);
  let price_line := "Price:--->" +:+ price +:+ nl in
  write_line price_line report_file.

Definition main : M unit :=
  ogre_object ← lift (get_bs_object flats_ogre);
  let nondup_urls := find_single_page_urls ogre_object in
  for_in (range 10) (main_listing nondup_urls).

End Network.

(* ================================================================== *)
(** ** Vocabulary of the properties *)
(* ================================================================== *)

(** *** Occurrences in a string *)

(** [sep] occurs in [s]. *)
Definition occurs (sep s : string) : Prop := ∃ a b, s = a +:+ sep +:+ b.

(** [a] is what stands before the leftmost occurrence of [sep] in [s], and
    [b] what stands after it. *)
Definition first_occurrence (sep s a b : string) : Prop :=
  s = a +:+ sep +:+ b ∧
  ∀ a' b', s = a' +:+ sep +:+ b' → String.length a ≤ String.length a'.

(** *** Links *)

(** The links of the anchors, as one expression: prefix every href with
    the origin and keep the ones that contain the marker. *)
Definition marked_links (anchors : list node) : list string :=
  filter (λ u, re_search "msg" u = true)
         ((λ href, "https://ss.lv" +:+ href) <$> omap (attr "href") anchors).

(** What the second loop adds to the links it has already kept. *)
Fixpoint first_seen (seen l : list string) : list string :=
  match l with
  | [] => []
  | u :: l' =>
      if bool_decide (u ∈ seen) then first_seen seen l'
      else u :: first_seen (seen ++ [u]) l'
  end.

(** *** Cells *)

(** The attribute written last in the opening tag, the one with the
    greatest name, is written between double quotes. *)
Definition double_quoted (tag : string) (attrs : list (string * string)) : bool :=
  match last (sorted_attributes attrs) with
  | Some kv =>
      let v := attribute_value tag kv in
      negb (has_char dquote v) || has_char "'" v
  | None => false
  end.

(** A node that is plain text: not a tag, and not a comment or another
    string written back between delimiters. *)
Definition is_text (n : node) : bool :=
  match n with
  | NavigableString _ => true
  | PreformattedString _ _ | Tag _ _ _ => false
  end.

(** [name] is the field carved from [data]. *)
Definition field_of (data : node) (name : string) : Prop :=
  table_field (str data) = Ok name.

(** The markup of [data] holds the separator of the first cut. *)
Definition carvable (data : node) : Prop :=
  re_search quote_gt (str data) = true.

(** The reading of the specification: the text between the bracket that
    closes the opening tag and the next opening angle bracket. *)
Definition leading_inline_text (tostr : string) : option string :=
  match partition1 ">" tostr with
  | Some (_, inner) =>
      match partition1 "<" inner with
      | Some (text, _) => Some text
      | None => Some inner
      end
  | None => None
  end.

(** *** What a run leaves in the report *)

Definition pair_line (name value : string) : string :=
  name +:+ "-->" +:+ value +:+ nl.

Definition price_line (price : string) : string :=
  "Price:--->" +:+ price +:+ nl.

(** The file system after [write_line] was called on each of [lines], in
    order, for the report file. *)
Definition written (lines : list string) (fs : files) : files :=
  fold_left (λ fs text, (write_line text report_file fs).2) lines fs.

(** What the report holds; an absent file holds nothing. *)
Definition contents (fs : files) : string :=
  default EmptyString (fs !! report_file).

(** The number of rounds of the inner loop of [main]. *)
Definition pair_rounds (table_opt_names : list string) : nat :=
  Z.to_nat (len table_opt_names - 1).

(** The lines the inner loop writes: one for each of the first
    [pair_rounds names] names that has a value at its position. *)
Definition pair_lines (names values : list string) : list string :=
  zip_with pair_line (take (pair_rounds names) names) values.

(** What one round of the outer loop writes, and how it ends, from the
    three extracted sequences. *)
Definition listing_lines (url : string) (names values price : list string)
  : list string :=
  [report_header; url +:+ nl] ++ pair_lines names values ++
  (if decide (pair_rounds names ≤ length values)
   then match price with p :: _ => [price_line p] | [] => [] end
   else []).

Definition listing_result (names values price : list string) : result unit :=
  if decide (pair_rounds names ≤ length values)
  then match price with _ :: _ => Ok tt | [] => Raise IndexError end
  else Raise IndexError.

(** The reading of the specification for one listing: a header line, the
    address, one paired line per name and value, a price line. *)
Definition paired_listing_lines (url : string) (names values price : list string)
  : list string :=
  [report_header; url +:+ nl] ++ zip_with pair_line names values
    ++ match price with p :: _ => [price_line p] | [] => [] end.

Section Outcome.

Variable requests_get : string → option string.
Variable BeautifulSoup : string → node.

Local Abbreviation extract := (get_msg_table_info requests_get BeautifulSoup).

(** The same for a listing, from its address: extraction comes first, and
    nothing is written when it raises. *)
Definition listing_outcome (url : string) : result unit * list string :=
  match extract url "ads_opt_name" with
  | Raise e => (Raise e, [])
  | Ok names =>
      match extract url "ads_opt" with
      | Raise e => (Raise e, [])
      | Ok values =>
          match extract url "ads_price" with
          | Raise e => (Raise e, [])
          | Ok price =>
              (listing_result names values price,
               listing_lines url names values price)
          end
      end
  end.

(** The lines of the listings of [urls], one block after the other. *)
Definition report_of (urls : list string) : list string :=
  flat_map (λ url, (listing_outcome url).2) urls.

(** Every listing of [urls] is processed without an exception. *)
Definition all_ok (urls : list string) : Prop :=
  Forall (λ url, (listing_outcome url).1 = Ok tt) urls.

(** Why fetching or parsing the detail page at [url] fails, if it does. *)
Definition detail_fault (url : string) : option exn :=
  match requests_get url with
  | None => Some RequestException
  | Some content =>
      match find "table" (attr_eq "id" "page_main") (BeautifulSoup content) with
      | None => Some AttributeError
      | Some _ => None
      end
  end.

End Outcome.

(** *** The targets of the anchors *)

(** The values of [a['href']] for the anchors that discovery visits, in
    document order. *)
Definition hrefs (bs_object : node) : list string :=
  omap (attr "href") (find_all "a" (has_attr "href") bs_object).

(** The values of [one_link] in the first loop of discovery: the absolute
    link of every anchor with a target, in document order, whether it
    holds the marker or not. *)
Definition one_links (bs_object : node) : list string :=
  (λ href, "https://ss.lv" +:+ href) <$> hrefs bs_object.

(* ================================================================== *)
(** ** The downloader: [file_downloader.py] *)
(* ================================================================== *)

Module Downloader.

(** One entry of the [Contents] of a bucket listing: a Python dict, read
    at the keys [Key] and [LastModified].  A key may be missing (reading it
    raises); the modification time is a point on the time line. *)
Record s3_object : Type := {
  Key : option string;
  LastModified : option Z;
}.

Definition S3_LAMBDA_BUCKET_NAME : string := "lambda-ogre-scraped-data-marcitis".

(** The loop of [max(objs, key=...)] after the first item: the key of
    every item is read, and an item replaces the current one only when its
    key is strictly greater.  [None] stands for an exception. *)
Fixpoint max_go (maxitem : s3_object) (maxval : Z) (objs : list s3_object)
  : option s3_object :=
  match objs with
  | [] => Some maxitem
  | item :: objs' =>
      match LastModified item with
      | None => None                              (* KeyError *)
      | Some val =>
          if (maxval <? val)%Z then max_go item val objs'
          else max_go maxitem maxval objs'
      end
  end.

(** [max(objs, key=lambda x: x['LastModified'])] *)
Definition max_by_last_modified (objs : list s3_object) : option s3_object :=
  match objs with
  | [] => None                                    (* ValueError *)
  | item :: objs' =>
      match LastModified item with
      | None => None                              (* KeyError *)
      | Some val => max_go item val objs'
      end
  end.

Section S3.

(** [s3.list_objects_v2(Bucket=b)]: [None] when the call raises, else the
    entry [Contents] of the response, if the response has one. *)
Variable list_objects_v2 : string → option (option (list s3_object)).

(** [get_last_file_name]: every exception inside the [try] ends in
    [return None], as the empty listing does.  The log calls are left
    out. *)
Definition get_last_file_name (s3_bucket_name : string) : option string :=
  match list_objects_v2 s3_bucket_name with
  | None => None
  | Some response =>
      let objs := default [] response in          (* [.get('Contents', [])] *)
      match objs with
      | [] => None
      | _ :: _ =>
          match max_by_last_modified objs with
          | None => None
          | Some newest => Key newest             (* a missing [Key] raises *)
          end
      end
  end.

End S3.

(** [o] carries the modification time [t]. *)
Definition modified_at (o : s3_object) (t : Z) : Prop := LastModified o = Some t.

(** [objs] splits around [o]: [o] was modified at [t], everything before
    it strictly earlier, everything after it not later. *)
Definition first_newest (objs : list s3_object) (o : s3_object) : Prop :=
  ∃ before after t,
    objs = before ++ o :: after
    ∧ modified_at o t
    ∧ Forall (λ o', ∃ t', modified_at o' t' ∧ (t' < t)%Z) before
    ∧ Forall (λ o', ∃ t', modified_at o' t' ∧ (t' ≤ t)%Z) after.

End Downloader.

(* ================================================================== *)
(** ** Sample documents *)
(* ================================================================== *)

Module Sample.

Definition td (c t : string) : node := Tag "td" [("class", c)] [NavigableString t].

Definition page (rows : list node) : node :=
  Tag "[document]" [] [Tag "html" [] [Tag "body" []
    [Tag "table" [("id", "page_main")] rows]]].

(** A detail page with two name cells, two value cells and one price
    cell; the first value is bold and followed by a map link. *)
Definition detail22 : node :=
  page [Tag "tr" []
          [td "ads_opt_name" "Iela:";
           Tag "td" [("class", "ads_opt"); ("id", "tdo_11")]
             [Tag "b" [] [NavigableString "Skolas 1"];
              NavigableString " [";
              Tag "a" [("href", "/x")] [NavigableString "Karte"];
              NavigableString "]"]];
        Tag "tr" [] [td "ads_opt_name" "Istabas:"; td "ads_opt" "2"];
        Tag "tr" [] [td "ads_price" "30 000"]].

(** Three name cells, two value cells. *)
Definition detail32 : node :=
  page [Tag "tr" [] [td "ads_opt_name" "Iela:"; td "ads_opt" "Skolas 1"];
        Tag "tr" [] [td "ads_opt_name" "Istabas:"; td "ads_opt" "2"];
        Tag "tr" [] [td "ads_opt_name" "Datums:"];
        Tag "tr" [] [td "ads_price" "30 000"]].

(** The table is there and holds no cell at all. *)
Definition detail_empty : node := page [].

(** Only a price cell. *)
Definition detail_price : node := page [Tag "tr" [] [td "ads_price" "30 000"]].

(** No table with the id [page_main]. *)
Definition no_table : node :=
  Tag "[document]" [] [Tag "html" [] [Tag "body" []
    [Tag "p" [] [NavigableString "Not found"]]]].

(** A cell whose attribute written last, [title], holds a double quote:
    the library writes the value between single quotes. *)
Definition quoted_cell : node :=
  Tag "td" [("class", "ads_opt"); ("title", String "a" (String dquote "b"))]
    [NavigableString "x"].
Definition detail_quoted : node := page [Tag "tr" [] [quoted_cell]].

Definition bold_cell : node :=
  Tag "td" [("class", "ads_opt")] [Tag "b" [] [NavigableString "Ogre"]].

(** A cell with a line break between two texts; its attributes are written
    in the order of their names, [class] before [id]. *)
Definition break_cell : node :=
  Tag "td" [("id", "tdo_8"); ("class", "ads_price")]
    [NavigableString "45 000"; Tag "br" [] []; NavigableString "EUR"].

(** A cell without nested tags whose comment holds a closing-tag marker. *)
Definition comment_cell : node :=
  Tag "td" [("class", "ads_opt")]
    [NavigableString "Ogre";
     PreformattedString Comment " </b> ";
     NavigableString "centrs"].

Definition anchor (href : string) : node :=
  Tag "a" [("href", href)] [NavigableString "x"].

(** Two listing links, the first one twice, a navigation link and an
    anchor without target. *)
Definition index3 : node :=
  Tag "[document]" []
    [anchor "/msg/a.html"; anchor "/lv/"; Tag "a" [] [];
     Tag "div" [] [anchor "/msg/b.html"]; anchor "/msg/a.html"].

(** The two listing links of [index3], once each, and nothing else. *)
Definition index2 : node :=
  Tag "[document]" [] [anchor "/msg/a.html"; anchor "/msg/b.html"].

(** Twelve listing links, eleven of them distinct. *)
Definition index12 : node :=
  Tag "[document]" []
    (map (λ c, anchor ("/msg/" +:+ c))
       ["0"; "1"; "2"; "3"; "4"; "5"; "6"; "7"; "8"; "9"; "3"; "a"]).

(** A web that serves [index] as the Ogre index and [detail] at every other
    address.  The body of a response is its address, and the parser looks
    the document up by it. *)
Definition serve (index detail : node) : string → node :=
  λ content, if bool_decide (content = flats_ogre) then index else detail.

(** The same web with every detail page unreachable. *)
Definition index_only : string → option string :=
  λ url, if bool_decide (url = flats_ogre) then Some url else None.

End Sample.

(* ================================================================== *)
(** ** Facts about strings and the leftmost cut *)
(* ================================================================== *)

Section StringFacts.

Implicit Types (a b p r s sep : string) (c : ascii).

Lemma str_app_nil_l s : EmptyString +:+ s = s.
Proof. reflexivity. Qed.

Lemma str_app_cons c a b : String c a +:+ b = String c (a +:+ b).
Proof. reflexivity. Qed.

Lemma str_app_nil_r s : s +:+ EmptyString = s.
Proof. induction s as [|c s IH]; [done|]. by rewrite str_app_cons, IH. Qed.

Lemma str_app_assoc a b s : (a +:+ b) +:+ s = a +:+ b +:+ s.
Proof. induction a as [|c a IH]; [done|]. by rewrite !str_app_cons, IH. Qed.

Lemma str_length_app a b : String.length (a +:+ b) = String.length a + String.length b.
Proof. induction a as [|c a IH]; [done|]. rewrite str_app_cons. simpl. by rewrite IH. Qed.

(** Two decompositions of one string with left parts of equal length
    coincide. *)
Lemma str_app_inv_length a a' b b' :
  a +:+ b = a' +:+ b' → String.length a = String.length a' → a = a' ∧ b = b'.
Proof.
  revert a'. induction a as [|c a IH]; intros [|c' a'] Heq Hlen;
    simpl in Hlen; try discriminate.
  - by rewrite !str_app_nil_l in Heq.
  - rewrite !str_app_cons in Heq. injection Heq as -> Heq.
    destruct (IH a' Heq) as [-> ->]; [lia | done].
Qed.

Lemma strip_prefix_spec p s r : strip_prefix p s = Some r ↔ s = p +:+ r.
Proof.
  revert s. induction p as [|c p IH]; intros s; simpl.
  - rewrite str_app_nil_l. naive_solver.
  - rewrite str_app_cons. destruct s as [|d s]; [naive_solver|].
    destruct (Ascii.eqb_spec c d) as [->|Hne].
    + rewrite IH. naive_solver.
    + naive_solver.
Qed.

Lemma partition1_sound sep s a b :
  partition1 sep s = Some (a, b) → s = a +:+ sep +:+ b.
Proof.
  revert a. induction s as [|c s IH]; intros a; simpl.
  - destruct (strip_prefix sep EmptyString) as [r|] eqn:Hp; [|done].
    intros [= <- <-]. by apply strip_prefix_spec in Hp.
  - destruct (strip_prefix sep (String c s)) as [r|] eqn:Hp.
    + intros [= <- <-]. by apply strip_prefix_spec in Hp.
    + destruct (partition1 sep s) as [[a0 b0]|]; [|done].
      intros [= <- <-]. rewrite str_app_cons. f_equal. by apply IH.
Qed.

Lemma partition1_leftmost sep s a b :
  partition1 sep s = Some (a, b) →
  ∀ a' b', s = a' +:+ sep +:+ b' → String.length a ≤ String.length a'.
Proof.
  revert a. induction s as [|c s IH]; intros a; simpl.
  - destruct (strip_prefix sep EmptyString); [|done].
    intros [= <- <-] ?? _. simpl. lia.
  - destruct (strip_prefix sep (String c s)) as [r|] eqn:Hp.
    + intros [= <- <-] ?? _. simpl. lia.
    + destruct (partition1 sep s) as [[a0 b0]|]; [|done].
      intros [= <- <-] [|c' a'] b' Heq.
      * rewrite str_app_nil_l in Heq. apply strip_prefix_spec in Heq. congruence.
      * rewrite str_app_cons in Heq. simplify_eq. simpl.
        specialize (IH a0 eq_refl a' b' eq_refl). lia.
Qed.

Lemma partition1_complete sep a b : is_Some (partition1 sep (a +:+ sep +:+ b)).
Proof.
  induction a as [|c a IH].
  - rewrite str_app_nil_l. destruct (sep +:+ b) eqn:Hs; simpl.
    + assert (strip_prefix sep EmptyString = Some b) as ->; [|eauto].
      by apply strip_prefix_spec.
    + assert (strip_prefix sep (String a s) = Some b) as ->; [|eauto].
      by apply strip_prefix_spec.
  - rewrite str_app_cons. simpl.
    destruct (strip_prefix sep _); [eauto|].
    destruct IH as [[a0 b0] ->]. eauto.
Qed.

Lemma partition1_first_occurrence sep s a b :
  partition1 sep s = Some (a, b) ↔ first_occurrence sep s a b.
Proof.
  split.
  - intros H. split; [by apply partition1_sound | by eapply partition1_leftmost].
  - intros [-> Hmin].
    destruct (partition1_complete sep a b) as [[a0 b0] H0].
    pose proof (partition1_sound _ _ _ _ H0) as Heq.
    pose proof (partition1_leftmost _ _ _ _ H0 a b eq_refl) as Hle.
    pose proof (Hmin a0 b0 Heq) as Hge.
    destruct (str_app_inv_length a a0 (sep +:+ b) (sep +:+ b0)) as [-> Hb];
      [done | lia |].
    apply (inj (String.app sep)) in Hb as ->. done.
Qed.

Lemma partition1_None sep s : partition1 sep s = None ↔ ¬ occurs sep s.
Proof.
  split.
  - intros HN (a & b & ->).
    destruct (partition1_complete sep a b) as [? ?]. congruence.
  - intros Hno. destruct (partition1 sep s) as [[a b]|] eqn:H; [|done].
    exfalso. apply Hno. exists a, b. by apply partition1_sound.
Qed.

Lemma re_search_occurs pat s : re_search pat s = true ↔ occurs pat s.
Proof.
  unfold re_search. destruct (partition1 pat s) as [[a b]|] eqn:H.
  - split; [|done]. intros _. exists a, b. by apply partition1_sound.
  - apply partition1_None in H. naive_solver.
Qed.

End StringFacts.

(* ================================================================== *)
(** ** Link discovery *)
(* ================================================================== *)

Section Discovery.

Implicit Types (l seen acc : list string) (u : string).

Lemma fold_add_link anchors acc :
  fold_left add_link anchors acc = acc ++ marked_links anchors.
Proof.
  revert acc. induction anchors as [|a anchors IH]; intros acc; simpl.
  - by rewrite app_nil_r.
  - rewrite IH. unfold add_link, marked_links. simpl.
    destruct (attr "href" a) as [href|]; simpl; [|done].
    rewrite filter_cons.
    destruct (re_search "msg" ("https://ss.lv" +:+ href)) eqn:Hm.
    + rewrite decide_True by done. by rewrite <- app_assoc.
    + rewrite decide_False by (by intros ?). done.
Qed.

Lemma url_list_of_marked_links anchors :
  url_list_of anchors = marked_links anchors.
Proof. apply (fold_add_link anchors []). Qed.

Lemma fold_keep l acc : fold_left keep l acc = acc ++ first_seen acc l.
Proof.
  revert acc. induction l as [|u l IH]; intros acc; simpl.
  - by rewrite app_nil_r.
  - rewrite IH. unfold keep, not_in.
    destruct (decide (u ∈ acc)) as [Hin|Hout].
    + by rewrite bool_decide_false, bool_decide_true by naive_solver.
    + rewrite bool_decide_true, bool_decide_false by done.
      by rewrite <- app_assoc.
Qed.

Lemma valid_urls_of_first_seen l : valid_urls_of l = first_seen [] l.
Proof. unfold valid_urls_of. apply (fold_keep l []). Qed.

Lemma elem_of_first_seen u seen l : u ∈ first_seen seen l ↔ u ∈ l ∧ u ∉ seen.
Proof.
  revert seen. induction l as [|v l IH]; intros seen; simpl.
  - set_solver.
  - case_bool_decide as Hv.
    + rewrite IH. set_solver.
    + rewrite elem_of_cons, IH. rewrite elem_of_app, elem_of_cons.
      destruct (decide (u = v)) as [->|]; set_solver.
Qed.

Lemma NoDup_first_seen seen l : NoDup (first_seen seen l).
Proof.
  revert seen. induction l as [|v l IH]; intros seen; simpl.
  - constructor.
  - case_bool_decide; [done|]. constructor; [|done].
    rewrite elem_of_first_seen. set_solver.
Qed.

Lemma sublist_first_seen seen l : sublist (first_seen seen l) l.
Proof.
  revert seen. induction l as [|v l IH]; intros seen; simpl.
  - constructor.
  - case_bool_decide; [by apply sublist_cons | by apply sublist_skip].
Qed.

Lemma first_seen_NoDup seen l :
  NoDup l → (∀ u, u ∈ l → u ∉ seen) → first_seen seen l = l.
Proof.
  revert seen. induction l as [|v l IH]; intros seen Hnd Hdis; simpl; [done|].
  apply NoDup_cons in Hnd as [Hv Hnd].
  rewrite bool_decide_false by set_solver. f_equal.
  apply IH; [done|]. intros u Hu. rewrite elem_of_app, list_elem_of_singleton.
  intros [?| ->]; [|done]. eapply Hdis; [|done]. set_solver.
Qed.

Lemma valid_urls_of_first_position l1 u l2 :
  u ∉ l1 →
  ∃ rest, valid_urls_of (l1 ++ u :: l2) = valid_urls_of l1 ++ (u :: rest)
          ∧ (u ∉ valid_urls_of l1) ∧ (u ∉ rest).
Proof.
  intros Hu.
  assert (u ∉ valid_urls_of l1) as Hu'.
  { rewrite valid_urls_of_first_seen, elem_of_first_seen. naive_solver. }
  exists (first_seen (valid_urls_of l1 ++ [u]) l2). split_and!; [|done|].
  - unfold valid_urls_of at 1. rewrite fold_left_app. simpl.
    fold (valid_urls_of l1).
    unfold keep at 2, not_in. rewrite bool_decide_true by done.
    rewrite fold_keep. by rewrite <- app_assoc.
  - rewrite elem_of_first_seen. set_solver.
Qed.

Lemma filter_Forall_id (P : string → Prop) `{!∀ u, Decision (P u)} l :
  Forall P l → filter P l = l.
Proof.
  induction 1 as [|u l Hu _ IH]; [done|]. by rewrite filter_cons_True, IH.
Qed.

(** Discovery, as one expression over the links of the anchors. *)
Lemma find_single_page_urls_one_links bs_object :
  find_single_page_urls bs_object
  = first_seen [] (filter (λ u, re_search "msg" u = true) (one_links bs_object)).
Proof.
  unfold find_single_page_urls.
  by rewrite valid_urls_of_first_seen, url_list_of_marked_links.
Qed.

End Discovery.

(* ================================================================== *)
(** ** Field carving *)
(* ================================================================== *)

Section Carving.

#[local] Arguments Ascii.eqb : simpl never.

Implicit Types (a b s tostr front after inner rest : string) (c : ascii).

Lemma table_field_unfold tostr :
  table_field tostr =
    match partition1 quote_gt tostr with
    | Some (_, no_front) =>
        match partition1 lt_slash no_front with
        | Some (name, _) => Ok name
        | None => Ok no_front
        end
    | None => Raise IndexError
    end.
Proof.
  unfold table_field, split1.
  destruct (partition1 quote_gt tostr) as [[a no_front]|]; [|done].
  simpl. by destruct (partition1 lt_slash no_front) as [[name b]|].
Qed.

Lemma table_field_between tostr front after inner rest :
  first_occurrence quote_gt tostr front after →
  first_occurrence lt_slash after inner rest →
  table_field tostr = Ok inner.
Proof.
  intros H1%partition1_first_occurrence H2%partition1_first_occurrence.
  by rewrite table_field_unfold, H1, H2.
Qed.

Lemma table_field_to_end tostr front after :
  first_occurrence quote_gt tostr front after →
  ¬ occurs lt_slash after →
  table_field tostr = Ok after.
Proof.
  intros H1%partition1_first_occurrence H2%partition1_None.
  by rewrite table_field_unfold, H1, H2.
Qed.

Lemma table_field_no_quote_gt tostr :
  ¬ occurs quote_gt tostr → table_field tostr = Raise IndexError.
Proof. intros H%partition1_None. by rewrite table_field_unfold, H. Qed.

Lemma table_field_ok_iff tostr :
  is_ok (table_field tostr) = re_search quote_gt tostr.
Proof.
  rewrite table_field_unfold. unfold re_search.
  destruct (partition1 quote_gt tostr) as [[a no_front]|]; [|done].
  by destruct (partition1 lt_slash no_front) as [[name b]|].
Qed.

(** Two ways to know where the leftmost occurrence is. *)
Lemma partition1_skip1 c sep a b :
  has_char c a = false →
  partition1 (String c sep) (a +:+ String c sep +:+ b) = Some (a, b).
Proof.
  intros Ha. induction a as [|d a IH].
  - rewrite str_app_nil_l. apply partition1_first_occurrence.
    split; [done|]. intros; simpl; lia.
  - simpl in Ha. apply orb_false_iff in Ha as [Hd Ha].
    rewrite str_app_cons. simpl. rewrite Hd. by rewrite IH.
Qed.

Lemma partition1_skip2 c1 c2 a b :
  c1 ≠ c2 → has_char c2 a = false →
  partition1 (String c1 (String c2 EmptyString)) (a +:+ String c1 (String c2 b))
  = Some (a, b).
Proof.
  intros Hne Ha. induction a as [|d a IH].
  - rewrite str_app_nil_l. simpl. by rewrite !Ascii.eqb_refl.
  - simpl in Ha. apply orb_false_iff in Ha as [Hd Ha].
    rewrite str_app_cons. simpl. rewrite (IH Ha).
    destruct (Ascii.eqb c1 d); [|done].
    destruct a as [|e a].
    + rewrite str_app_nil_l.
      assert (Ascii.eqb c2 c1 = false) as ->; [|done].
      apply Ascii.eqb_neq. congruence.
    + rewrite str_app_cons. simpl in Ha.
      apply orb_false_iff in Ha as [-> _]. done.
Qed.

Lemma has_char_app c a b : has_char c (a +:+ b) = has_char c a || has_char c b.
Proof.
  induction a as [|d a IH]; [done|].
  rewrite str_app_cons. simpl. rewrite IH. by rewrite orb_assoc.
Qed.

Lemma has_char_substitute_xml c s :
  c = "<"%char ∨ c = ">"%char → has_char c (substitute_xml s) = false.
Proof.
  intros Hc. induction s as [|d s IH]; [done|]. simpl.
  rewrite has_char_app, IH, orb_false_r.
  destruct (Ascii.eqb_spec d "&"); [by destruct Hc as [-> | ->]|].
  destruct (Ascii.eqb_spec d "<"); [by destruct Hc as [-> | ->]|].
  destruct (Ascii.eqb_spec d ">"); [by destruct Hc as [-> | ->]|].
  simpl. rewrite ?orb_false_r. apply Ascii.eqb_neq. naive_solver.
Qed.

Lemma has_char_replace_quot s :
  has_char ">" (replace_char dquote "&quot;" s) = has_char ">" s.
Proof.
  induction s as [|d s IH]; [done|]. simpl. rewrite has_char_app, IH.
  destruct (Ascii.eqb_spec dquote d) as [<-|]; [done|].
  simpl. by rewrite orb_false_r.
Qed.

Lemma has_char_quoted_attribute_value v :
  has_char ">" (quoted_attribute_value v) = has_char ">" v.
Proof.
  unfold quoted_attribute_value.
  destruct (has_char dquote v), (has_char "'" v); simpl;
    rewrite ?has_char_app, ?has_char_replace_quot; simpl;
    by rewrite ?orb_false_r.
Qed.

Lemma has_char_concat_str c (l : list string) :
  Forall (λ s, has_char c s = false) l → has_char c (concat_str l) = false.
Proof.
  induction 1 as [|s l Hs _ IH]; [done|]. simpl. by rewrite has_char_app, Hs, IH.
Qed.

(** *** The markup of a cell *)

Lemma concat_str_app (l1 l2 : list string) :
  concat_str (l1 ++ l2) = concat_str l1 +:+ concat_str l2.
Proof.
  induction l1 as [|x l1 IH]; [done|]. simpl. by rewrite IH, str_app_assoc.
Qed.

Lemma str_Tag name attrs cs :
  name ∉ cdata_containing_tags → name ∉ empty_element_tags →
  str (Tag name attrs cs) =
    "<" +:+ name +:+ attributes_str name attrs +:+ ">"
        +:+ concat_str (map str cs) +:+ "</" +:+ name +:+ ">".
Proof.
  intros Hc He. cbn [str].
  rewrite !(bool_decide_false _ Hc), ?(bool_decide_false _ He).
  destruct cs as [|c cs]; [done|].
  erewrite (map_ext _ str); [done | by intros []].
Qed.

Lemma str_td attrs cs :
  str (Tag "td" attrs cs) =
    ("<td" +:+ attributes_str "td" attrs) +:+ ">"
        +:+ concat_str (map str cs) +:+ lt_slash +:+ "td>".
Proof.
  rewrite str_Tag; [by rewrite str_app_assoc | |];
    by apply (bool_decide_eq_false_1 _).
Qed.

Lemma quoted_attribute_value_dquote v :
  negb (has_char dquote v) || has_char "'" v = true →
  ∃ o, quoted_attribute_value v = o +:+ String dquote EmptyString.
Proof.
  unfold quoted_attribute_value.
  destruct (has_char dquote v), (has_char "'" v); simpl; intros H; try done.
  - by exists (String dquote (replace_char dquote "&quot;" v)).
  - by exists (String dquote v).
  - by exists (String dquote v).
Qed.

Lemma Forall_insert_attribute (P : string * string → Prop) kv l :
  P kv → Forall P l → Forall P (insert_attribute kv l).
Proof.
  intros Hkv. induction 1 as [|kv' l Hkv' Hl IH]; simpl; [by constructor|].
  destruct (String.leb kv.1 kv'.1); repeat constructor; done.
Qed.

Lemma Forall_sorted_attributes (P : string * string → Prop) attrs :
  Forall P attrs → Forall P (sorted_attributes attrs).
Proof.
  induction 1 as [|kv attrs Hkv _ IH]; [constructor|].
  by apply Forall_insert_attribute.
Qed.

Lemma attributes_str_dquote tag attrs :
  double_quoted tag attrs = true →
  ∃ o, attributes_str tag attrs = o +:+ String dquote EmptyString.
Proof.
  unfold double_quoted, attributes_str.
  destruct (last (sorted_attributes attrs)) as [kv|] eqn:Hl; [|done].
  apply last_Some in Hl as [attrs' ->]. intros [o Ho]%quoted_attribute_value_dquote.
  rewrite map_app, concat_str_app. simpl.
  unfold attribute_str at 2. rewrite Ho, str_app_nil_r.
  exists (concat_str (map (attribute_str tag) attrs') +:+ " " +:+ kv.1 +:+ "=" +:+ o).
  by rewrite !str_app_assoc.
Qed.

Lemma has_char_gt_attributes_str tag attrs :
  Forall (λ kv, has_char ">" kv.1 = false) attrs →
  has_char ">" (attributes_str tag attrs) = false.
Proof.
  intros H%Forall_sorted_attributes. apply has_char_concat_str, Forall_map.
  eapply Forall_impl; [done|]. intros kv Hk. unfold attribute_str. simpl.
  rewrite !has_char_app, Hk, has_char_quoted_attribute_value.
  unfold attribute_value. by rewrite has_char_substitute_xml by auto.
Qed.

Lemma has_char_lt_texts cs :
  forallb is_text cs = true → has_char "<" (concat_str (map str cs)) = false.
Proof.
  intros H. rewrite forallb_forall in H.
  apply has_char_concat_str, Forall_map, Forall_forall.
  intros [t|kind t|] Hin; [by apply has_char_substitute_xml; auto|..];
    apply list_elem_of_In, H in Hin; done.
Qed.

(** Where the first cut falls in the markup of a cell whose opening tag
    ends in a double-quoted value. *)
Lemma partition1_td attrs cs :
  Forall (λ kv, has_char ">" kv.1 = false) attrs →
  double_quoted "td" attrs = true →
  ∃ front,
    partition1 quote_gt (str (Tag "td" attrs cs))
    = Some (front, concat_str (map str cs) +:+ lt_slash +:+ "td>").
Proof.
  intros Hk [o Ho]%attributes_str_dquote.
  pose proof (has_char_gt_attributes_str "td" attrs Hk) as Hgt.
  rewrite Ho, has_char_app in Hgt. apply orb_false_iff in Hgt as [Hgt _].
  exists ("<td" +:+ o). rewrite str_td, Ho.
  set (after := concat_str (map str cs) +:+ lt_slash +:+ "td>").
  replace (_ +:+ ">" +:+ after)
    with (("<td" +:+ o) +:+ String dquote (String ">" after))
    by (by rewrite !str_app_assoc).
  apply (partition1_skip2 dquote ">"); [done|].
  by rewrite has_char_app, Hgt.
Qed.

(** What stands before the leftmost occurrence holds no occurrence. *)
Lemma partition1_before_no_occurrence sep s a b :
  partition1 sep s = Some (a, b) → sep ≠ EmptyString → ¬ occurs sep a.
Proof.
  intros H Hne (a1 & a2 & ->).
  pose proof (partition1_sound _ _ _ _ H) as Hs.
  rewrite !str_app_assoc in Hs.
  pose proof (partition1_leftmost _ _ _ _ H a1 _ Hs) as Hlen.
  rewrite !str_length_app in Hlen.
  destruct sep; [done|]. simpl in Hlen. lia.
Qed.

Lemma str_app_prefix a x b y :
  a +:+ x = b +:+ y → String.length a ≤ String.length b → ∃ mid, b = a +:+ mid.
Proof.
  revert b. induction a as [|ch a IH]; intros b Heq Hlen.
  - by exists b.
  - destruct b as [|ch' b]; [simpl in Hlen; lia|].
    rewrite !str_app_cons in Heq. injection Heq as -> Heq.
    destruct (IH b Heq) as [mid ->]; [simpl in Hlen; lia|].
    by exists mid.
Qed.

(** Markup without a closing-tag marker is kept whole by the second cut. *)
Lemma partition1_lt_slash_absent inner tail :
  ¬ occurs lt_slash inner →
  partition1 lt_slash (inner +:+ lt_slash +:+ tail) = Some (inner, tail).
Proof.
  intros Hno.
  destruct (partition1_complete lt_slash inner tail) as [[kept after] Hkept].
  pose proof (partition1_sound _ _ _ _ Hkept) as Heq.
  pose proof (partition1_leftmost _ _ _ _ Hkept inner tail eq_refl) as Hlen.
  destruct (str_app_prefix kept (lt_slash +:+ after) inner (lt_slash +:+ tail))
    as [rest ->]; [done | done |].
  rewrite str_app_assoc in Heq.
  apply str_app_inv_length in Heq as [_ Heq]; [|done].
  unfold lt_slash in Heq. rewrite !str_app_cons, !str_app_nil_l in Heq.
  destruct rest as [|ch [|ch' rest]].
  - rewrite str_app_nil_l in Heq. rewrite str_app_nil_r in *.
    by injection Heq as ->.
  - rewrite !str_app_cons, !str_app_nil_l in Heq. discriminate.
  - destruct Hno. exists kept, rest.
    rewrite !str_app_cons in Heq. injection Heq as -> -> _.
    unfold lt_slash. by rewrite !str_app_cons, !str_app_nil_l.
Qed.

(** Such a cell can be carved. *)
Lemma carvable_td attrs cs :
  Forall (λ kv, has_char ">" kv.1 = false) attrs →
  double_quoted "td" attrs = true →
  carvable (Tag "td" attrs cs).
Proof.
  intros Hk Hq. destruct (partition1_td attrs cs Hk Hq) as [front Hfront].
  unfold carvable, re_search. by rewrite Hfront.
Qed.

End Carving.

(* ================================================================== *)
(** ** Field extraction *)
(* ================================================================== *)

Section Extraction.

Variable requests_get : string → option string.
Variable BeautifulSoup : string → node.

Local Abbreviation extract := (get_msg_table_info requests_get BeautifulSoup).

Implicit Types (cells : list node) (fields acc : list string).

Lemma table_field_raise tostr e : table_field tostr = Raise e → e = IndexError.
Proof.
  rewrite table_field_unfold.
  destruct (partition1 quote_gt tostr) as [[a no_front]|]; [|congruence].
  by destruct (partition1 lt_slash no_front) as [[name b]|].
Qed.

Lemma carvable_field_of data : carvable data → ∃ name, field_of data name.
Proof.
  unfold carvable, field_of. rewrite <- table_field_ok_iff.
  destruct (table_field (str data)); [eauto | done].
Qed.

Lemma not_carvable_raise data :
  ¬ carvable data → table_field (str data) = Raise IndexError.
Proof.
  unfold carvable. rewrite <- table_field_ok_iff.
  destruct (table_field (str data)) as [|e] eqn:H; [done|].
  by apply table_field_raise in H as ->.
Qed.

Lemma for_acc_add_field_ok cells fields acc :
  Forall2 field_of cells fields →
  for_acc cells add_field acc = Ok (acc ++ fields).
Proof.
  intros H. revert acc.
  induction H as [|data name cells fields Hd _ IH]; intros acc; simpl.
  - by rewrite app_nil_r.
  - unfold add_field at 1. rewrite Hd, IH. by rewrite <- app_assoc.
Qed.

Lemma for_acc_add_field_raise cells acc data :
  data ∈ cells → ¬ carvable data →
  for_acc cells add_field acc = Raise IndexError.
Proof.
  intros Hin Hnc. revert acc.
  induction cells as [|d cells IH]; intros acc; [by apply elem_of_nil in Hin|].
  simpl. unfold add_field at 1.
  destruct (table_field (str d)) as [name|e] eqn:Hd.
  - apply elem_of_cons in Hin as [->|Hin]; [|by apply IH].
    apply not_carvable_raise in Hnc. congruence.
  - by apply table_field_raise in Hd as ->.
Qed.

Lemma carvable_fields cells :
  Forall carvable cells → ∃ fields, Forall2 field_of cells fields.
Proof.
  induction 1 as [|data cells [name Hd]%carvable_field_of _ [fields IH]].
  - exists []. constructor.
  - exists (name :: fields). by constructor.
Qed.

Lemma get_msg_table_info_table msg_url td_class content table :
  requests_get msg_url = Some content →
  find "table" (attr_eq "id" "page_main") (BeautifulSoup content) = Some table →
  extract msg_url td_class
  = for_acc (find_all "td" (has_class td_class) table) add_field [].
Proof. intros Hget Hfind. unfold get_msg_table_info. by rewrite Hget, Hfind. Qed.

Lemma get_msg_table_info_no_table msg_url td_class content :
  requests_get msg_url = Some content →
  find "table" (attr_eq "id" "page_main") (BeautifulSoup content) = None →
  extract msg_url td_class = Raise AttributeError.
Proof. intros Hget Hfind. unfold get_msg_table_info. by rewrite Hget, Hfind. Qed.

Lemma get_msg_table_info_no_page msg_url td_class :
  requests_get msg_url = None →
  extract msg_url td_class = Raise RequestException.
Proof. intros Hget. unfold get_msg_table_info. by rewrite Hget. Qed.

End Extraction.

(* ================================================================== *)
(** ** The report and the loops of [main] *)
(* ================================================================== *)

(** One step of a computation: unfold the monad down to the state pair. *)
Ltac monad_step := unfold mbind, M_bind, bind, lift, getitem.

Section Loops.

Implicit Types (fs : files) (lines : list string).

Lemma written_nil fs : written [] fs = fs.
Proof. done. Qed.

Lemma written_app lines1 lines2 fs :
  written (lines1 ++ lines2) fs = written lines2 (written lines1 fs).
Proof. apply fold_left_app. Qed.

Lemma written_cons text lines fs :
  written (text :: lines) fs = written lines (written [text] fs).
Proof. done. Qed.

Lemma write_line_written text fs :
  write_line text report_file fs = (Ok tt, written [text] fs).
Proof. done. Qed.

Lemma contents_written lines fs :
  contents (written lines fs) = contents fs +:+ concat_str lines.
Proof.
  revert fs. induction lines as [|text lines IH]; intros fs.
  - by rewrite str_app_nil_r.
  - rewrite written_cons, IH. simpl. rewrite <- str_app_assoc. f_equal.
    unfold contents, written, write_line. simpl. by rewrite lookup_insert_eq.
Qed.

Lemma written_other lines fs file_name :
  file_name ≠ report_file → written lines fs !! file_name = fs !! file_name.
Proof.
  intros Hne. revert fs. induction lines as [|text lines IH]; intros fs; [done|].
  rewrite written_cons, IH. unfold written, write_line. simpl.
  by rewrite lookup_insert_ne.
Qed.

Lemma for_in_app {A} (l1 l2 : list A) (body : A → M unit) fs :
  for_in (l1 ++ l2) body fs =
    match for_in l1 body fs with
    | (Ok _, fs') => for_in l2 body fs'
    | (Raise e, fs') => (Raise e, fs')
    end.
Proof.
  revert fs. induction l1 as [|x l1 IH]; intros fs; [done|].
  simpl. unfold mbind, M_bind, bind.
  destruct (body x fs) as [[[]|e] fs']; [apply IH | done].
Qed.

Lemma for_in_singleton {A} (x : A) (body : A → M unit) fs :
  for_in [x] body fs = body x fs.
Proof.
  simpl. unfold mbind, M_bind, bind, ret.
  by destruct (body x fs) as [[[]|e] fs'].
Qed.

End Loops.

(* ================================================================== *)
(** ** The inner loop of [main] *)
(* ================================================================== *)

Section Pairs.

Implicit Types (fs : files) (names values : list string).

Lemma pair_rounds_eq names : pair_rounds names = length names - 1.
Proof. unfold pair_rounds, len. lia. Qed.

(** The body of the inner loop, as [main_pairs] has it. *)
Local Abbreviation pair_body names values := (λ i : nat,
    name ← lift (getitem names i);
    value ← lift (getitem values i);
    write_line (name +:+ "-->" +:+ value +:+ nl) report_file).

Lemma pair_body_ok names values i name value fs :
  names !! i = Some name → values !! i = Some value →
  pair_body names values i fs = (Ok tt, written [pair_line name value] fs).
Proof.
  intros Hn Hv. monad_step. by rewrite Hn, Hv.
Qed.

Lemma pair_body_raise names values i fs :
  i < length names → length values ≤ i →
  pair_body names values i fs = (Raise IndexError, fs).
Proof.
  intros [name Hn]%lookup_lt_is_Some Hv%lookup_ge_None.
  monad_step. by rewrite Hn, Hv.
Qed.

Lemma for_in_pairs_ok names values n fs :
  n ≤ length names → n ≤ length values →
  for_in (seq 0 n) (pair_body names values) fs
  = (Ok tt, written (zip_with pair_line (take n names) (take n values)) fs).
Proof.
  induction n as [|n IH]; intros Hn Hv; [done|].
  rewrite seq_S, for_in_app, IH, Nat.add_0_l by lia. cbv beta iota.
  destruct (lookup_lt_is_Some_2 names n) as [name Hname]; [lia|].
  destruct (lookup_lt_is_Some_2 values n) as [value Hvalue]; [lia|].
  rewrite for_in_singleton, (pair_body_ok _ _ _ name value) by done.
  rewrite (take_S_r _ _ _ Hname), (take_S_r _ _ _ Hvalue).
  rewrite zip_with_app by (rewrite !length_take; lia).
  by rewrite written_app.
Qed.

Lemma for_in_pairs_raise names values n fs :
  n ≤ length names → length values < n →
  for_in (seq 0 n) (pair_body names values) fs
  = (Raise IndexError,
     written (zip_with pair_line (take (length values) names) values) fs).
Proof.
  intros Hn Hv.
  replace n with (length values + S (n - S (length values))) by lia.
  rewrite seq_app, for_in_app, for_in_pairs_ok by lia.
  rewrite firstn_all, Nat.add_0_l. cbv beta iota. cbn [seq for_in].
  unfold mbind at 1, M_bind at 1, bind at 1.
  by rewrite pair_body_raise by lia.
Qed.

Lemma main_pairs_ok names values fs :
  pair_rounds names ≤ length values →
  main_pairs names values fs = (Ok tt, written (pair_lines names values) fs).
Proof.
  intros Hv. pose proof (pair_rounds_eq names) as Hr.
  unfold main_pairs, range. fold (pair_rounds names).
  rewrite for_in_pairs_ok by lia.
  unfold pair_lines. by rewrite zip_with_take_r' by (rewrite length_take; lia).
Qed.

Lemma main_pairs_raise names values fs :
  length values < pair_rounds names →
  main_pairs names values fs
  = (Raise IndexError, written (pair_lines names values) fs).
Proof.
  intros Hv. pose proof (pair_rounds_eq names) as Hr.
  unfold main_pairs, range. fold (pair_rounds names).
  rewrite for_in_pairs_raise by lia.
  unfold pair_lines. do 2 f_equal.
  rewrite <- (zip_with_take_l _ (take (pair_rounds names) names) values).
  by rewrite take_take, Nat.min_l by lia.
Qed.

Lemma length_pair_lines names values :
  length (pair_lines names values) = pair_rounds names `min` length values.
Proof.
  unfold pair_lines. rewrite length_zip_with, length_take, pair_rounds_eq. lia.
Qed.

End Pairs.

(* ================================================================== *)
(** ** One listing, and the run *)
(* ================================================================== *)

Section Run.

Variable requests_get : string → option string.
Variable BeautifulSoup : string → node.

Local Abbreviation extract := (get_msg_table_info requests_get BeautifulSoup).
Local Abbreviation listing := (main_listing requests_get BeautifulSoup).
Local Abbreviation listing_outcome := (listing_outcome requests_get BeautifulSoup).
Local Abbreviation report_of := (report_of requests_get BeautifulSoup).
Local Abbreviation all_ok := (all_ok requests_get BeautifulSoup).

Implicit Types (fs : files) (urls names values price : list string).

Lemma main_listing_extracted urls i url names values price fs :
  urls !! i = Some url →
  extract url "ads_opt_name" = Ok names →
  extract url "ads_opt" = Ok values →
  extract url "ads_price" = Ok price →
  listing urls i fs
  = (listing_result names values price,
     written (listing_lines url names values price) fs).
Proof.
  intros Hu Hn Hv Hp. unfold main_listing, listing_result, listing_lines.
  monad_step. rewrite Hu, Hn, Hv, Hp.
  rewrite !write_line_written, written_app. simpl written at 3.
  case_decide as Hr.
  - rewrite main_pairs_ok, written_app by done.
    destruct price as [|p price']; simpl; [done|].
    by rewrite write_line_written.
  - rewrite main_pairs_raise, written_app by lia. done.
Qed.

Lemma main_listing_outcome urls i url fs :
  urls !! i = Some url →
  listing urls i fs = ((listing_outcome url).1, written (listing_outcome url).2 fs).
Proof.
  intros Hu. unfold listing_outcome.
  destruct (extract url "ads_opt_name") as [names|e] eqn:Hn;
    [destruct (extract url "ads_opt") as [values|e] eqn:Hv;
      [destruct (extract url "ads_price") as [price|e] eqn:Hp|]|].
  - by apply main_listing_extracted.
  - unfold main_listing. monad_step. by rewrite Hu, Hn, Hv, Hp.
  - unfold main_listing. monad_step. by rewrite Hu, Hn, Hv.
  - unfold main_listing. monad_step. by rewrite Hu, Hn.
Qed.

(** A listing is processed without an exception exactly when its three
    extractions return, there is a value for every name but the last, and
    there is a price. *)
Lemma listing_outcome_ok url :
  (listing_outcome url).1 = Ok tt ↔
  ∃ names values price,
    extract url "ads_opt_name" = Ok names
    ∧ extract url "ads_opt" = Ok values
    ∧ extract url "ads_price" = Ok price
    ∧ length names - 1 ≤ length values
    ∧ price ≠ [].
Proof.
  unfold listing_outcome, listing_result.
  destruct (extract url "ads_opt_name") as [names|e]; [|naive_solver].
  destruct (extract url "ads_opt") as [values|e]; [|naive_solver].
  destruct (extract url "ads_price") as [price|e]; [|naive_solver].
  simpl. rewrite pair_rounds_eq.
  case_decide; destruct price; naive_solver.
Qed.

Lemma main_listing_out_of_range urls i fs :
  length urls ≤ i → listing urls i fs = (Raise IndexError, fs).
Proof.
  intros Hu%lookup_ge_None.
  unfold main_listing. monad_step. by rewrite Hu.
Qed.

Lemma report_of_app urls1 urls2 :
  report_of (urls1 ++ urls2) = report_of urls1 ++ report_of urls2.
Proof. apply flat_map_app. Qed.

Lemma for_in_listings_ok urls n fs :
  n ≤ length urls → all_ok (take n urls) →
  for_in (seq 0 n) (listing urls) fs
  = (Ok tt, written (report_of (take n urls)) fs).
Proof.
  induction n as [|n IH]; intros Hn Hok; [done|].
  destruct (lookup_lt_is_Some_2 urls n) as [url Hurl]; [lia|].
  rewrite (take_S_r _ _ _ Hurl) in Hok |- *.
  apply Forall_app in Hok as [Hok Hurl_ok%Forall_inv].
  rewrite seq_S, for_in_app, IH, Nat.add_0_l by (done || lia). cbv beta iota.
  rewrite for_in_singleton, (main_listing_outcome _ _ url), Hurl_ok by done.
  rewrite report_of_app, written_app. simpl. by rewrite app_nil_r.
Qed.

(** The run stops at the first round that raises; what that round wrote
    before raising stays in the report. *)
Lemma for_in_listings_raise urls n i e (partial : list string) fs :
  i < n → i ≤ length urls → all_ok (take i urls) →
  (∀ fs0, listing urls i fs0 = (Raise e, written partial fs0)) →
  for_in (seq 0 n) (listing urls) fs
  = (Raise e, written (report_of (take i urls) ++ partial) fs).
Proof.
  intros Hi Hlen Hok Hraise.
  replace n with (i + S (n - S i)) by lia.
  rewrite seq_app, for_in_app, for_in_listings_ok, Nat.add_0_l by done.
  cbv beta iota. cbn [seq for_in].
  unfold mbind at 1, M_bind at 1, bind at 1.
  by rewrite Hraise, written_app.
Qed.

Lemma main_unfold fs :
  main requests_get BeautifulSoup fs =
    match get_bs_object requests_get BeautifulSoup flats_ogre with
    | Ok ogre_object =>
        for_in (seq 0 10) (listing (find_single_page_urls ogre_object)) fs
    | Raise e => (Raise e, fs)
    end.
Proof.
  unfold main, mbind, M_bind, bind, lift.
  by destruct (get_bs_object _ _ _).
Qed.

End Run.

(* ================================================================== *)
(** ** Properties: link discovery *)
(* ================================================================== *)

(** C6.  Link discovery only reads the document, and what it returns
    is settled by the links of the anchors, taken in document order: the
    result keeps their order; it holds no link twice; it holds exactly
    the links of the anchors that contain the marker; and a link with the
    marker that occurs under several anchors stands once, where its first
    occurrence puts it: after the links with the marker met before that
    occurrence, and before every other one.  A second run, on any document
    whose anchors give the same links, returns the same sequence; and run
    over a document whose anchors give its own result, discovery returns
    that result unchanged. *)
Theorem find_single_page_urls_first_seen_order (bs_object : node) :
  let valid_urls := find_single_page_urls bs_object in
  sublist valid_urls (one_links bs_object)
  ∧ NoDup valid_urls
  ∧ (∀ url, url ∈ valid_urls ↔ url ∈ one_links bs_object ∧ occurs "msg" url)
  ∧ (∀ before url after,
       one_links bs_object = before ++ url :: after →
       (url ∉ before) → occurs "msg" url →
       ∃ front rest,
         valid_urls = front ++ url :: rest
         ∧ (url ∉ front) ∧ (url ∉ rest)
         ∧ (∀ u, u ∈ front ↔ u ∈ before ∧ occurs "msg" u))
  ∧ (∀ bs_object', one_links bs_object' = one_links bs_object →
                   find_single_page_urls bs_object' = valid_urls)
  ∧ (∀ bs_object', one_links bs_object' = valid_urls →
                   find_single_page_urls bs_object' = valid_urls).
Proof.
  intros valid_urls.
  assert (valid_urls
          = first_seen [] (filter (λ u, re_search "msg" u = true)
                                  (one_links bs_object))) as Hv
    by apply find_single_page_urls_one_links.
  assert (∀ url, url ∈ valid_urls ↔ url ∈ one_links bs_object ∧ occurs "msg" url)
    as Hin.
  { intros url. rewrite Hv, elem_of_first_seen, list_elem_of_filter.
    rewrite re_search_occurs. set_solver. }
  assert (NoDup valid_urls) as Hnd by (rewrite Hv; apply NoDup_first_seen).
  split_and!; [| done | done | | |].
  - rewrite Hv. etrans; [apply sublist_first_seen | apply sublist_filter].
  - intros before url after Heq Hfirst Hmsg%re_search_occurs.
    destruct (valid_urls_of_first_position
                (filter (λ u, re_search "msg" u = true) before) url
                (filter (λ u, re_search "msg" u = true) after))
      as (rest & Hpos & Hfront & Hrest).
    { rewrite list_elem_of_filter. naive_solver. }
    exists (valid_urls_of (filter (λ u, re_search "msg" u = true) before)), rest.
    split_and!; [| done | done |].
    + rewrite <- Hpos, Hv, Heq, filter_app, filter_cons_True by done.
      by rewrite valid_urls_of_first_seen.
    + intros u. rewrite valid_urls_of_first_seen, elem_of_first_seen.
      rewrite list_elem_of_filter, re_search_occurs. set_solver.
  - intros bs_object' Hlinks.
    by rewrite find_single_page_urls_one_links, Hlinks.
  - intros bs_object' Hlinks.
    rewrite find_single_page_urls_one_links, Hlinks.
    rewrite filter_Forall_id.
    + apply first_seen_NoDup; [done | set_solver].
    + apply Forall_forall. intros u [_ Hu]%Hin. by apply re_search_occurs.
Qed.

Lemma find_single_page_urls_first_seen_order_witness :
  find_single_page_urls Sample.index3
    = ["https://ss.lv/msg/a.html"; "https://ss.lv/msg/b.html"]
  ∧ (∃ front rest,
       find_single_page_urls Sample.index3
       = front ++ ("https://ss.lv/msg/a.html" :: rest)
       ∧ ("https://ss.lv/msg/a.html" ∉ front)
       ∧ ("https://ss.lv/msg/a.html" ∉ rest)
       ∧ (∀ u, u ∈ front ↔ u ∈ [] ∧ occurs "msg" u))
  ∧ find_single_page_urls Sample.index2 = find_single_page_urls Sample.index3.
Proof.
  split; [reflexivity|].
  destruct (find_single_page_urls_first_seen_order Sample.index3)
    as (_ & _ & _ & Hpos & _ & Hagain).
  split.
  - apply (Hpos [] "https://ss.lv/msg/a.html"
                ["https://ss.lv/lv/"; "https://ss.lv/msg/b.html";
                 "https://ss.lv/msg/a.html"]).
    + reflexivity.
    + apply (bool_decide_unpack _). vm_compute. exact I.
    + by exists "https://ss.lv/", "/a.html".
  - apply Hagain. reflexivity.
Defined.

(** C10.  Every link returned by discovery starts with the origin
    [https://ss.lv] and contains [msg], and no link is returned twice. *)
Theorem find_single_page_urls_marked (bs_object : node) :
  Forall (λ url, (∃ href, url = "https://ss.lv" +:+ href) ∧ occurs "msg" url)
         (find_single_page_urls bs_object)
  ∧ NoDup (find_single_page_urls bs_object).
Proof.
  unfold find_single_page_urls. rewrite valid_urls_of_first_seen. split.
  - apply Forall_forall. intros url [Hin _]%elem_of_first_seen.
    rewrite url_list_of_marked_links in Hin. unfold marked_links in Hin.
    apply list_elem_of_filter in Hin as [Hmsg Hin].
    apply list_elem_of_fmap in Hin as (href & -> & _).
    split; [by exists href | by apply re_search_occurs].
  - apply NoDup_first_seen.
Qed.

(* ================================================================== *)
(** ** Properties: field extraction *)
(* ================================================================== *)

(** C5, as stated, fails: for a cell whose text is bold the carving keeps
    the nested opening tag and the text inside it, where the text up to the
    next opening angle bracket is empty. *)
Lemma table_field_keeps_nested_opening_tag :
  str Sample.bold_cell = "<td class=" +:+ String dquote "ads_opt" +:+ quote_gt
                           +:+ "<b>Ogre</b></td>"
  ∧ table_field (str Sample.bold_cell) = Ok "<b>Ogre"
  ∧ leading_inline_text (str Sample.bold_cell) = Some EmptyString
  ∧ table_field (str Sample.bold_cell) ≠ Ok EmptyString.
Proof. split_and!; [reflexivity | reflexivity | reflexivity | discriminate]. Qed.

(** C5, amended.  The opening tag of a cell is written with its
    attributes in the order of their names; when the attribute written
    last stands between double quotes, the carving returns the markup
    inside the cell up to the first closing-tag marker.  That is the whole
    inner text when the children of the cell are plain text only, and the
    whole inner markup whenever it holds no [</] (a line break, say);
    otherwise it is everything before the first [</], nested opening tags
    and the opening of a comment included. *)
Theorem table_field_cell (attrs : list (string * string)) (cs : list node) :
  Forall (λ kv, has_char ">" kv.1 = false) attrs →
  double_quoted "td" attrs = true →
  let inner := concat_str (map str cs) in
  (forallb is_text cs = true → table_field (str (Tag "td" attrs cs)) = Ok inner)
  ∧ (¬ occurs lt_slash inner → table_field (str (Tag "td" attrs cs)) = Ok inner)
  ∧ (∀ kept rest,
       first_occurrence lt_slash (inner +:+ lt_slash +:+ "td>") kept rest →
       table_field (str (Tag "td" attrs cs)) = Ok kept).
Proof.
  intros Hk Hq inner.
  destruct (partition1_td attrs cs Hk Hq) as [front Hfront]. fold inner in Hfront.
  split_and!.
  - intros Htext. rewrite table_field_unfold, Hfront.
    by rewrite (partition1_skip1 "<" "/") by by apply has_char_lt_texts.
  - intros Hno. rewrite table_field_unfold, Hfront.
    by rewrite partition1_lt_slash_absent.
  - intros kept rest Hkept%partition1_first_occurrence.
    by rewrite table_field_unfold, Hfront, Hkept.
Qed.

Lemma table_field_cell_witness :
  table_field (str (Tag "td" [("class", "ads_opt"); ("id", "tdo_1")]
                      [NavigableString "50 m2"])) = Ok "50 m2"
  ∧ table_field (str Sample.bold_cell) = Ok "<b>Ogre"
  ∧ table_field (str Sample.break_cell) = Ok "45 000<br/>EUR"
  ∧ table_field (str Sample.comment_cell) = Ok "Ogre<!-- ".
Proof.
  split_and!.
  - destruct (table_field_cell [("class", "ads_opt"); ("id", "tdo_1")]
                               [NavigableString "50 m2"]) as (Htext & _ & _).
    + repeat constructor.
    + reflexivity.
    + apply Htext. reflexivity.
  - destruct (table_field_cell [("class", "ads_opt")]
                               [Tag "b" [] [NavigableString "Ogre"]])
      as (_ & _ & Hcut).
    + repeat constructor.
    + reflexivity.
    + apply (Hcut "<b>Ogre" "b></td>").
      apply partition1_first_occurrence. reflexivity.
  - destruct (table_field_cell [("id", "tdo_8"); ("class", "ads_price")]
                [NavigableString "45 000"; Tag "br" [] []; NavigableString "EUR"])
      as (_ & Hwhole & _).
    + repeat constructor.
    + reflexivity.
    + apply Hwhole. intros Hocc%re_search_occurs. discriminate.
  - destruct (table_field_cell [("class", "ads_opt")]
                [NavigableString "Ogre"; PreformattedString Comment " </b> ";
                 NavigableString "centrs"]) as (_ & _ & Hcut).
    + repeat constructor.
    + reflexivity.
    + apply (Hcut "Ogre<!-- " "b> -->centrs</td>").
      apply partition1_first_occurrence. reflexivity.
Defined.

Section ExtractionProperties.

Variable requests_get : string → option string.
Variable BeautifulSoup : string → node.

Local Abbreviation extract := (get_msg_table_info requests_get BeautifulSoup).

(** C7, amended.  With the table present and no cell of the requested
    class in it, extraction returns the empty sequence; with the table
    absent it raises (the lookup of the table returned [None]). *)
Theorem get_msg_table_info_absent (msg_url td_class content : string) :
  requests_get msg_url = Some content →
  let soup := BeautifulSoup content in
  (∀ table, find "table" (attr_eq "id" "page_main") soup = Some table →
            find_all "td" (has_class td_class) table = [] →
            extract msg_url td_class = Ok [])
  ∧ (find "table" (attr_eq "id" "page_main") soup = None →
     extract msg_url td_class = Raise AttributeError).
Proof.
  intros Hget soup. split.
  - intros table Htable Hcells.
    by rewrite (get_msg_table_info_table _ _ _ _ content table), Hcells.
  - intros Htable. by eapply get_msg_table_info_no_table.
Qed.

(** C8, amended.  With the table present, extraction returns one string
    for each matched cell, in document order, the string carved from that
    cell, provided the markup of every matched cell holds a double quote
    followed by [>]; when the markup of some matched cell does not, it
    raises. *)
Theorem get_msg_table_info_one_per_cell (msg_url td_class content : string)
    (table : node) :
  requests_get msg_url = Some content →
  find "table" (attr_eq "id" "page_main") (BeautifulSoup content) = Some table →
  let cells := find_all "td" (has_class td_class) table in
  (Forall carvable cells →
     ∃ fields, extract msg_url td_class = Ok fields
               ∧ length fields = length cells
               ∧ Forall2 field_of cells fields)
  ∧ (∀ data, data ∈ cells → ¬ carvable data →
       extract msg_url td_class = Raise IndexError).
Proof.
  intros Hget Htable cells.
  rewrite (get_msg_table_info_table _ _ _ _ content table) by done.
  fold cells. split.
  - intros [fields Hfields]%carvable_fields. exists fields. split_and!.
    + by apply (for_acc_add_field_ok cells fields []).
    + symmetry. by eapply Forall2_length.
    + done.
  - intros data Hin Hnc. by eapply for_acc_add_field_raise.
Qed.

End ExtractionProperties.

(** C7, as stated, fails: on a page without the table, extraction raises
    instead of returning the empty sequence. *)
Lemma get_msg_table_info_no_table_raises :
  find "table" (attr_eq "id" "page_main") Sample.no_table = None
  ∧ get_msg_table_info Some (λ _, Sample.no_table) "u" "ads_opt"
    = Raise AttributeError
  ∧ get_msg_table_info Some (λ _, Sample.no_table) "u" "ads_opt" ≠ Ok [].
Proof. split_and!; [reflexivity | reflexivity | discriminate]. Qed.

Lemma get_msg_table_info_absent_witness :
  get_msg_table_info Some (λ _, Sample.detail_price) "u" "ads_opt" = Ok []
  ∧ get_msg_table_info Some (λ _, Sample.no_table) "u" "ads_opt"
    = Raise AttributeError.
Proof.
  split.
  - eapply (proj1 (get_msg_table_info_absent Some (λ _, Sample.detail_price)
                     "u" "ads_opt" "u" eq_refl)); reflexivity.
  - apply (proj2 (get_msg_table_info_absent Some (λ _, Sample.no_table)
                    "u" "ads_opt" "u" eq_refl)). reflexivity.
Defined.

(** C8, as stated, fails: the table is present and holds exactly one cell
    of the class, and extraction raises instead of returning one string. *)
Lemma get_msg_table_info_single_quoted_raises :
  find_all "td" (has_class "ads_opt") Sample.detail_quoted = [Sample.quoted_cell]
  ∧ str Sample.quoted_cell
    = "<td class=" +:+ String dquote "ads_opt" +:+ String dquote " title='a"
        +:+ String dquote "b'>x</td>"
  ∧ get_msg_table_info Some (λ _, Sample.detail_quoted) "u" "ads_opt"
    = Raise IndexError.
Proof. split_and!; reflexivity. Qed.

Lemma get_msg_table_info_one_per_cell_witness :
  ∃ fields,
    get_msg_table_info Some (λ _, Sample.detail22) "u" "ads_opt_name" = Ok fields
    ∧ length fields = 2
    ∧ Forall2 field_of
        (find_all "td" (has_class "ads_opt_name") Sample.detail22) fields.
Proof.
  destruct (find "table" (attr_eq "id" "page_main") Sample.detail22)
    as [table|] eqn:Htable; [|discriminate].
  pose proof (get_msg_table_info_one_per_cell Some (λ _, Sample.detail22)
                "u" "ads_opt_name" "u" table eq_refl Htable) as [Hok _].
  injection Htable as <-.
  apply Hok. repeat constructor.
Defined.

(* ================================================================== *)
(** ** Properties: the orchestrator *)
(* ================================================================== *)

(** C3, as stated, fails: with two names and two values one paired line is
    written, not two; with three names and one value the loop raises after
    the first line. *)
Lemma main_pairs_not_the_shorter_length :
  main_pairs ["Iela:"; "Istabas:"] ["Skolas 1"; "2"] ∅
    = (Ok tt, written [pair_line "Iela:" "Skolas 1"] ∅)
  ∧ length [pair_line "Iela:" "Skolas 1"] ≠ 2 `min` 2
  ∧ main_pairs ["Iela:"; "Istabas:"; "Platiba:"] ["Skolas 1"] ∅
    = (Raise IndexError, written [pair_line "Iela:" "Skolas 1"] ∅).
Proof. split_and!; [reflexivity | simpl; lia | reflexivity]. Qed.

(** C3, amended.  The inner loop runs over all names but the last.  With
    [m] names and [n] values: when [n >= m - 1] it writes exactly [m - 1]
    paired lines and raises nothing, the last name and the values from
    position [m - 1] on being dropped; when [n < m - 1] it writes [n]
    paired lines and then raises.  Line [i] pairs the name and the value
    at position [i]. *)
Theorem main_pairs_all_names_but_the_last (names values : list string)
    (fs : files) :
  let m := length names in
  let n := length values in
  (m - 1 ≤ n →
     main_pairs names values fs = (Ok tt, written (pair_lines names values) fs)
     ∧ length (pair_lines names values) = m - 1)
  ∧ (n < m - 1 →
     main_pairs names values fs
       = (Raise IndexError, written (pair_lines names values) fs)
     ∧ length (pair_lines names values) = n)
  ∧ (∀ i line, pair_lines names values !! i = Some line ↔
       ∃ name value, i < m - 1 ∧ names !! i = Some name
                     ∧ values !! i = Some value ∧ line = pair_line name value).
Proof.
  intros m n. pose proof (pair_rounds_eq names) as Hr.
  pose proof (length_pair_lines names values) as Hlen. split_and!.
  - intros Hn. split; [apply main_pairs_ok | ]; lia.
  - intros Hn. split; [apply main_pairs_raise | ]; lia.
  - intros i line. unfold pair_lines. rewrite lookup_zip_with_Some, Hr. split.
    + intros (name & value & -> & [Hname Hi]%lookup_take_Some & Hvalue).
      by exists name, value.
    + intros (name & value & Hi & Hname & Hvalue & ->).
      exists name, value. by rewrite lookup_take_Some.
Qed.

Lemma main_pairs_all_names_but_the_last_witness :
  main_pairs ["Iela:"; "Istabas:"; "Datums:"] ["Skolas 1"; "2"] ∅
    = (Ok tt, written (pair_lines ["Iela:"; "Istabas:"; "Datums:"]
                                  ["Skolas 1"; "2"]) ∅)
  ∧ length (pair_lines ["Iela:"; "Istabas:"; "Datums:"] ["Skolas 1"; "2"]) = 2.
Proof.
  apply (main_pairs_all_names_but_the_last
           ["Iela:"; "Istabas:"; "Datums:"] ["Skolas 1"; "2"] ∅).
  simpl. lia.
Defined.

Section RunProperties.

Variable requests_get : string → option string.
Variable BeautifulSoup : string → node.

Local Abbreviation extract := (get_msg_table_info requests_get BeautifulSoup).
Local Abbreviation listing := (main_listing requests_get BeautifulSoup).
Local Abbreviation run := (main requests_get BeautifulSoup).
Local Abbreviation outcome := (listing_outcome requests_get BeautifulSoup).
Local Abbreviation report := (report_of requests_get BeautifulSoup).
Local Abbreviation ok := (all_ok requests_get BeautifulSoup).
Local Abbreviation detail_fault := (detail_fault requests_get BeautifulSoup).

Lemma detail_fault_outcome url e :
  detail_fault url = Some e → outcome url = (Raise e, []).
Proof.
  unfold detail_fault, listing_outcome, get_msg_table_info.
  destruct (requests_get url) as [content|]; [|by intros [= <-]].
  by destruct (find _ _ _); [|intros [= <-]].
Qed.

(** C1, amended.  The outer loop always runs for ten rounds.  When
    discovery yields at least ten addresses and the first ten listings are
    processed without an exception, the run ends normally after exactly
    ten listings.  When discovery yields fewer than ten, the run processes
    the discovered listings and then raises on the index past the end of
    the list: it does not end normally. *)
Theorem main_ten_rounds (ogre_object : node) (fs : files) :
  get_bs_object requests_get BeautifulSoup flats_ogre = Ok ogre_object →
  let nondup_urls := find_single_page_urls ogre_object in
  ok (take 10 nondup_urls) →
  (10 ≤ length nondup_urls →
     run fs = (Ok tt, written (report (take 10 nondup_urls)) fs)
     ∧ length (take 10 nondup_urls) = 10)
  ∧ (length nondup_urls < 10 →
     run fs = (Raise IndexError, written (report nondup_urls) fs)).
Proof.
  intros Hidx urls Hok. rewrite main_unfold, Hidx. fold urls. split.
  - intros Hlen. split; [by apply for_in_listings_ok|].
    rewrite length_take. lia.
  - intros Hlen. rewrite take_ge in Hok by lia.
    rewrite (for_in_listings_raise _ _ urls 10 (length urls) IndexError []);
      rewrite ?firstn_all, ?app_nil_r; try done.
    intros fs0. by apply main_listing_out_of_range.
Qed.

(** C2, amended.  There is no handler around a round of the outer loop.
    When fetching or parsing the detail page of listing [i] fails and the
    listings before it were processed, the run ends with that exception:
    the report holds the lines of the listings before [i] and nothing of
    listing [i] or of any later one. *)
Theorem main_stops_at_first_fault (ogre_object : node) (i : nat) (url : string)
    (e : exn) (fs : files) :
  get_bs_object requests_get BeautifulSoup flats_ogre = Ok ogre_object →
  let nondup_urls := find_single_page_urls ogre_object in
  i < 10 → nondup_urls !! i = Some url →
  ok (take i nondup_urls) →
  detail_fault url = Some e →
  run fs = (Raise e, written (report (take i nondup_urls)) fs).
Proof.
  intros Hidx urls Hi Hurl Hok Hfault. rewrite main_unfold, Hidx. fold urls.
  rewrite (for_in_listings_raise _ _ urls 10 i e []);
    rewrite ?app_nil_r; try done.
  - by apply Nat.lt_le_incl, lookup_lt_is_Some_1.
  - intros fs0. rewrite (main_listing_outcome _ _ _ _ url) by done.
    by rewrite (detail_fault_outcome url e).
Qed.

(** C4, amended.  For a detail page whose table holds two name cells, two
    value cells and one price cell, each of them yielding a field, one
    round appends a header line, the address line, one paired line (the
    first name with the first value) and the price line; what the report
    held before stays in front, and no other file changes. *)
Theorem main_listing_two_names (nondup_urls : list string) (i : nat)
    (url content : string) (table name_cell1 name_cell2 : node)
    (value_cell1 value_cell2 price_cell : node)
    (name1 name2 value1 value2 price : string) (fs : files) :
  nondup_urls !! i = Some url →
  requests_get url = Some content →
  find "table" (attr_eq "id" "page_main") (BeautifulSoup content) = Some table →
  find_all "td" (has_class "ads_opt_name") table = [name_cell1; name_cell2] →
  find_all "td" (has_class "ads_opt") table = [value_cell1; value_cell2] →
  find_all "td" (has_class "ads_price") table = [price_cell] →
  field_of name_cell1 name1 → field_of name_cell2 name2 →
  field_of value_cell1 value1 → field_of value_cell2 value2 →
  field_of price_cell price →
  let lines := [report_header; url +:+ nl; pair_line name1 value1;
                price_line price] in
  ∃ fs', listing nondup_urls i fs = (Ok tt, fs')
         ∧ fs' = written lines fs
         ∧ contents fs' = contents fs +:+ concat_str lines
         ∧ ∀ file_name, file_name ≠ report_file → fs' !! file_name = fs !! file_name.
Proof.
  intros Hurl Hget Htable Hnames Hvalues Hprice Hn1 Hn2 Hv1 Hv2 Hp lines.
  assert (extract url "ads_opt_name" = Ok [name1; name2]) as Hn.
  { rewrite (get_msg_table_info_table _ _ _ _ content table), Hnames by done.
    apply (for_acc_add_field_ok _ [name1; name2] []). by repeat constructor. }
  assert (extract url "ads_opt" = Ok [value1; value2]) as Hv.
  { rewrite (get_msg_table_info_table _ _ _ _ content table), Hvalues by done.
    apply (for_acc_add_field_ok _ [value1; value2] []). by repeat constructor. }
  assert (extract url "ads_price" = Ok [price]) as Hpr.
  { rewrite (get_msg_table_info_table _ _ _ _ content table), Hprice by done.
    apply (for_acc_add_field_ok _ [price] []). by repeat constructor. }
  exists (written lines fs). split_and!.
  - by rewrite (main_listing_extracted _ _ _ _ url _ _ _ _ Hurl Hn Hv Hpr).
  - done.
  - apply contents_written.
  - intros file_name Hne. by apply written_other.
Qed.

(** C9, amended.  A round that ends without an exception is always
    followed by the next one.  When the extraction of names returns the
    empty sequence and the extraction of the price returns at least one
    entry, the round writes the header line, the address line and the
    price line and raises nothing. *)
Theorem main_listing_no_fields (nondup_urls : list string) (i : nat)
    (url price : string) (values more : list string) (fs : files) :
  nondup_urls !! i = Some url →
  extract url "ads_opt_name" = Ok [] →
  extract url "ads_opt" = Ok values →
  extract url "ads_price" = Ok (price :: more) →
  let lines := [report_header; url +:+ nl; price_line price] in
  listing nondup_urls i fs = (Ok tt, written lines fs)
  ∧ (∀ rounds, for_in (i :: rounds) (listing nondup_urls) fs
               = for_in rounds (listing nondup_urls) (written lines fs))
  ∧ (∀ j rounds fs0 fs1, listing nondup_urls j fs0 = (Ok tt, fs1) →
       for_in (j :: rounds) (listing nondup_urls) fs0
       = for_in rounds (listing nondup_urls) fs1).
Proof.
  intros Hurl Hn Hv Hp lines.
  assert (listing nondup_urls i fs = (Ok tt, written lines fs)) as Hround.
  { rewrite (main_listing_extracted _ _ _ _ url _ _ _ _ Hurl Hn Hv Hp).
    unfold listing_result, listing_lines.
    rewrite !decide_True by (rewrite pair_rounds_eq; simpl; lia).
    reflexivity. }
  assert (∀ j rounds fs0 fs1, listing nondup_urls j fs0 = (Ok tt, fs1) →
            for_in (j :: rounds) (listing nondup_urls) fs0
            = for_in rounds (listing nondup_urls) fs1) as Hnext.
  { intros j rounds fs0 fs1 Hj. cbn [for_in].
    unfold mbind at 1, M_bind at 1, bind at 1. by rewrite Hj. }
  split_and!; [done | | done]. intros rounds. by apply Hnext.
Qed.

End RunProperties.

(** C1, as stated, fails: discovery yields two addresses, both listings
    are processed, and the run raises on the third round instead of ending
    normally. *)
Lemma main_raises_after_two_listings :
  let web := Sample.serve Sample.index3 Sample.detail22 in
  length (find_single_page_urls Sample.index3) = 2
  ∧ all_ok Some web (find_single_page_urls Sample.index3)
  ∧ main Some web ∅
    = (Raise IndexError,
       written (report_of Some web (find_single_page_urls Sample.index3)) ∅).
Proof. split_and!; [reflexivity | repeat constructor | reflexivity]. Qed.

Lemma main_ten_rounds_witness :
  let web := Sample.serve Sample.index12 Sample.detail22 in
  main Some web ∅
    = (Ok tt, written (report_of Some web
                         (take 10 (find_single_page_urls Sample.index12))) ∅)
  ∧ length (take 10 (find_single_page_urls Sample.index12)) = 10.
Proof.
  intros web.
  apply (main_ten_rounds Some web Sample.index12 ∅ eq_refl).
  - repeat constructor.
  - vm_compute. lia.
Defined.

(** C2, as stated, fails: every detail page is unreachable, and the run
    ends with the exception of the first listing; none of the eleven
    discovered listings reaches the report. *)
Lemma main_aborts_on_unreachable_listing :
  let web := Sample.serve Sample.index12 Sample.detail22 in
  length (find_single_page_urls Sample.index12) = 11
  ∧ main Sample.index_only web ∅ = (Raise RequestException, ∅).
Proof. split; reflexivity. Qed.

Lemma main_stops_at_first_fault_witness :
  let web := Sample.serve Sample.index12 Sample.detail22 in
  let down := λ url, if bool_decide (url = "https://ss.lv/msg/2")
                     then None else Some url in
  main down web ∅
    = (Raise RequestException,
       written (report_of down web
                  ["https://ss.lv/msg/0"; "https://ss.lv/msg/1"]) ∅).
Proof.
  intros web down.
  apply (main_stops_at_first_fault down web Sample.index12 2
           "https://ss.lv/msg/2" RequestException ∅ eq_refl).
  - lia.
  - reflexivity.
  - repeat constructor.
  - reflexivity.
Defined.

(** C4, as stated, fails: on a page with two name cells, two value cells
    and one price cell the round writes one paired line, not two. *)
Lemma main_listing_writes_one_pair :
  let web := Sample.serve Sample.index3 Sample.detail22 in
  let fs : files := {[ report_file := "old" ]} in
  get_msg_table_info Some web "u" "ads_opt_name" = Ok ["Iela:"; "Istabas:"]
  ∧ get_msg_table_info Some web "u" "ads_opt" = Ok ["<b>Skolas 1"; "2"]
  ∧ get_msg_table_info Some web "u" "ads_price" = Ok ["30 000"]
  ∧ main_listing Some web ["u"] 0 fs
    = (Ok tt, written [report_header; "u" +:+ nl;
                       pair_line "Iela:" "<b>Skolas 1";
                       price_line "30 000"] fs)
  ∧ (main_listing Some web ["u"] 0 fs).2
    ≠ written (paired_listing_lines "u" ["Iela:"; "Istabas:"]
                 ["<b>Skolas 1"; "2"] ["30 000"]) fs.
Proof.
  split_and!; try reflexivity.
  intros H. apply (f_equal contents) in H. vm_compute in H. discriminate.
Qed.

Lemma main_listing_two_names_witness :
  let web := Sample.serve Sample.index3 Sample.detail22 in
  let fs : files := {[ report_file := "old" ]} in
  let lines := [report_header; "u" +:+ nl; pair_line "Iela:" "<b>Skolas 1";
                price_line "30 000"] in
  ∃ fs', main_listing Some web ["u"] 0 fs = (Ok tt, fs')
         ∧ fs' = written lines fs
         ∧ contents fs' = "old" +:+ concat_str lines
         ∧ ∀ file_name, file_name ≠ report_file → fs' !! file_name = fs !! file_name.
Proof.
  intros web fs lines.
  eapply (main_listing_two_names Some web ["u"] 0 "u" "u" _ _ _ _ _ _
            "Iela:" "Istabas:" "<b>Skolas 1" "2" "30 000" fs);
    reflexivity.
Defined.

(** The scenario of the specification with three names and two values:
    two paired lines, no exception. *)
Example main_listing_three_names_two_values :
  let web := Sample.serve Sample.index3 Sample.detail32 in
  get_msg_table_info Some web "u" "ads_opt_name"
    = Ok ["Iela:"; "Istabas:"; "Datums:"]
  ∧ get_msg_table_info Some web "u" "ads_opt" = Ok ["Skolas 1"; "2"]
  ∧ main_listing Some web ["u"] 0 ∅
    = (Ok tt, written [report_header; "u" +:+ nl;
                       pair_line "Iela:" "Skolas 1"; pair_line "Istabas:" "2";
                       price_line "30 000"] ∅).
Proof. split_and!; reflexivity. Qed.

(** C9, as stated, fails: when the three extractions return nothing, the
    round writes the header line and the address line and then raises on
    the price; the price line is not written. *)
Lemma main_listing_raises_without_price :
  let web := Sample.serve Sample.index3 Sample.detail_empty in
  get_msg_table_info Some web "u" "ads_opt_name" = Ok []
  ∧ get_msg_table_info Some web "u" "ads_opt" = Ok []
  ∧ get_msg_table_info Some web "u" "ads_price" = Ok []
  ∧ main_listing Some web ["u"] 0 ∅
    = (Raise IndexError, written [report_header; "u" +:+ nl] ∅).
Proof. split_and!; reflexivity. Qed.

Lemma main_listing_no_fields_witness :
  let web := Sample.serve Sample.index3 Sample.detail_price in
  main_listing Some web ["u"] 0 ∅
    = (Ok tt, written [report_header; "u" +:+ nl; price_line "30 000"] ∅).
Proof.
  intros web.
  apply (main_listing_no_fields Some web ["u"] 0 "u" "30 000" [] [] ∅);
    reflexivity.
Defined.

(* ================================================================== *)
(** ** Further properties: link discovery *)
(* ================================================================== *)

Section DiscoveryMore.

Implicit Types (href url : string) (l seen : list string).

(** The origin holds no part of the marker, so the search in the absolute
    link is decided by the target alone. *)
Lemma re_search_msg_origin href :
  re_search "msg" ("https://ss.lv" +:+ href) = re_search "msg" href.
Proof.
  unfold re_search. rewrite !str_app_cons, str_app_nil_l. simpl.
  by destruct (partition1 "msg" href) as [[a b]|].
Qed.

(** Every anchor that discovery visits has a target: [a['href']] does not
    raise. *)
Lemma find_all_href_is_Some bs_object a :
  a ∈ find_all "a" (has_attr "href") bs_object → is_Some (attr "href" a).
Proof.
  unfold find_all. intros [Hp _]%list_elem_of_filter.
  apply andb_true_iff in Hp as [_ Hattr].
  by apply bool_decide_eq_true in Hattr.
Qed.

Lemma length_hrefs bs_object :
  length (hrefs bs_object) = length (find_all "a" (has_attr "href") bs_object).
Proof.
  unfold hrefs.
  pose proof (find_all_href_is_Some bs_object) as Hall.
  induction (find_all "a" (has_attr "href") bs_object) as [|a anchors IH];
    [done|].
  destruct (Hall a) as [href Hhref]; [by left|].
  simpl. rewrite Hhref. simpl. f_equal. apply IH.
  intros a' Ha'. apply Hall. by right.
Qed.

Lemma marked_links_hrefs (hs : list string) :
  filter (λ u, re_search "msg" u = true) ((λ href, "https://ss.lv" +:+ href) <$> hs)
  = (λ href, "https://ss.lv" +:+ href)
      <$> filter (λ href, re_search "msg" href = true) hs.
Proof.
  induction hs as [|h hs IH]; [done|].
  rewrite fmap_cons, !filter_cons, IH.
  destruct (re_search "msg" h) eqn:Hh.
  - rewrite !decide_True by (by rewrite ?re_search_msg_origin). done.
  - rewrite !decide_False by (by rewrite ?re_search_msg_origin, Hh). done.
Qed.

Lemma first_seen_origin seen l :
  first_seen ((λ href, "https://ss.lv" +:+ href) <$> seen)
             ((λ href, "https://ss.lv" +:+ href) <$> l)
  = (λ href, "https://ss.lv" +:+ href) <$> first_seen seen l.
Proof.
  revert seen. induction l as [|h l IH]; intros seen; [done|].
  rewrite fmap_cons. simpl.
  assert (bool_decide ("https://ss.lv" +:+ h
                         ∈ (λ href, "https://ss.lv" +:+ href) <$> seen)
          = bool_decide (h ∈ seen)) as ->.
  { apply bool_decide_ext. rewrite list_elem_of_fmap. split.
    - intros (h' & Heq & Hin). by apply (inj (String.app _)) in Heq as ->.
    - intros Hin. by exists h. }
  case_bool_decide; [apply IH|].
  rewrite fmap_cons. f_equal. rewrite <- IH. by rewrite fmap_app.
Qed.

(** X2.  Discovery depends on the document through the sequence of targets
    only: it keeps the targets that contain the marker, drops the later
    occurrences of a target, and puts the origin in front of each. *)
Theorem find_single_page_urls_of_hrefs (bs_object : node) :
  find_single_page_urls bs_object
  = (λ href, "https://ss.lv" +:+ href)
      <$> valid_urls_of
            (filter (λ href, re_search "msg" href = true) (hrefs bs_object)).
Proof.
  unfold find_single_page_urls.
  rewrite url_list_of_marked_links. unfold marked_links. fold (hrefs bs_object).
  rewrite marked_links_hrefs, !valid_urls_of_first_seen.
  apply (first_seen_origin []).
Qed.

(** X1.  A link is returned exactly when some anchor of the document has a
    target that contains the marker and the link is the origin followed by
    that target. *)
Theorem elem_of_find_single_page_urls (bs_object : node) (url : string) :
  url ∈ find_single_page_urls bs_object ↔
  ∃ a href, a ∈ find_all "a" (has_attr "href") bs_object
            ∧ attr "href" a = Some href
            ∧ occurs "msg" href
            ∧ url = "https://ss.lv" +:+ href.
Proof.
  unfold find_single_page_urls.
  rewrite valid_urls_of_first_seen, elem_of_first_seen.
  rewrite url_list_of_marked_links. unfold marked_links.
  rewrite list_elem_of_filter, list_elem_of_fmap. split.
  - intros [[Hmsg (href & -> & Hin)] _].
    apply list_elem_of_omap in Hin as (a & Ha & Hhref).
    exists a, href. split_and!; [done | done | | done].
    apply re_search_occurs. by rewrite <- re_search_msg_origin.
  - intros (a & href & Ha & Hhref & Hmsg & ->). split; [|set_solver].
    split.
    + rewrite re_search_msg_origin. by apply re_search_occurs.
    + exists href. split; [done|]. apply list_elem_of_omap. eauto.
Qed.

End DiscoveryMore.

(* ================================================================== *)
(** ** Further properties: field carving and extraction *)
(* ================================================================== *)

Section CarvingMore.

Implicit Types (a b s sep tostr name : string).

(** X3.  A carved field is a piece of the markup: it stands right after a
    double quote followed by [>], it is followed by [</] or by the end of
    the markup, and it holds no [</] itself. *)
Theorem table_field_inside (tostr name : string) :
  table_field tostr = Ok name →
  (∃ front tail, tostr = front +:+ quote_gt +:+ name +:+ tail
                 ∧ (tail = EmptyString ∨ ∃ rest, tail = lt_slash +:+ rest))
  ∧ ¬ occurs lt_slash name.
Proof.
  rewrite table_field_unfold.
  destruct (partition1 quote_gt tostr) as [[front no_front]|] eqn:H1; [|done].
  apply partition1_sound in H1.
  destruct (partition1 lt_slash no_front) as [[name' rest]|] eqn:H2.
  - intros [= ->]. split.
    + exists front, (lt_slash +:+ rest). split; [|eauto].
      by rewrite <- (partition1_sound _ _ _ _ H2).
    + by eapply partition1_before_no_occurrence.
  - intros [= ->]. split.
    + exists front, EmptyString. split; [by rewrite str_app_nil_r | by left].
    + by apply partition1_None.
Qed.

Lemma table_field_inside_witness :
  ∃ front tail,
    "<td class=" +:+ String dquote "ads_opt" +:+ quote_gt +:+ "2</td>"
      = front +:+ quote_gt +:+ "2" +:+ tail
    ∧ (tail = EmptyString ∨ ∃ rest, tail = lt_slash +:+ rest).
Proof.
  apply (table_field_inside
           ("<td class=" +:+ String dquote "ads_opt" +:+ quote_gt +:+ "2</td>")
           "2").
  reflexivity.
Defined.

(** X4.  For a cell whose opening tag ends in a double-quoted attribute
    value (the value of the attribute with the greatest name, whatever
    its place in the document) the carving always returns, and what it
    returns is the beginning of the markup inside the cell: it never
    reaches the closing tag of the cell or anything after it. *)
Theorem table_field_td_prefix (attrs : list (string * string)) (cs : list node) :
  Forall (λ kv, has_char ">" kv.1 = false) attrs →
  double_quoted "td" attrs = true →
  ∃ kept rest,
    table_field (str (Tag "td" attrs cs)) = Ok kept
    ∧ concat_str (map str cs) = kept +:+ rest
    ∧ ¬ occurs lt_slash kept.
Proof.
  intros Hk Hq. destruct (partition1_td attrs cs Hk Hq) as [front Hfront].
  set (inner := concat_str (map str cs)) in *.
  destruct (partition1_complete lt_slash inner "td>") as [[kept tail] Hkept].
  pose proof (partition1_sound _ _ _ _ Hkept) as Heq.
  pose proof (partition1_leftmost _ _ _ _ Hkept inner "td>" eq_refl) as Hlen.
  destruct (str_app_prefix kept (lt_slash +:+ tail) inner (lt_slash +:+ "td>"))
    as [rest Hrest]; [done | done |].
  exists kept, rest. split_and!.
  - by rewrite table_field_unfold, Hfront, Hkept.
  - done.
  - by eapply partition1_before_no_occurrence.
Qed.

Lemma table_field_td_prefix_witness :
  (∃ kept rest,
     table_field (str Sample.bold_cell) = Ok kept
     ∧ concat_str (map str [Tag "b" [] [NavigableString "Ogre"]]) = kept +:+ rest
     ∧ ¬ occurs lt_slash kept)
  ∧ (∃ kept rest,
       table_field (str Sample.break_cell) = Ok kept
       ∧ concat_str (map str [NavigableString "45 000"; Tag "br" [] [];
                              NavigableString "EUR"]) = kept +:+ rest
       ∧ ¬ occurs lt_slash kept).
Proof.
  split.
  - apply (table_field_td_prefix [("class", "ads_opt")]
             [Tag "b" [] [NavigableString "Ogre"]]).
    + repeat constructor.
    + reflexivity.
  - apply (table_field_td_prefix [("id", "tdo_8"); ("class", "ads_price")]
             [NavigableString "45 000"; Tag "br" [] []; NavigableString "EUR"]).
    + repeat constructor.
    + reflexivity.
Defined.

(** The order of the names decides, not the order in the document: with
    [title] after [class] in the opening tag, a title written between
    single quotes leaves the markup without the separator of the first
    cut. *)
Example table_field_attribute_order :
  let cell := Tag "td" [("title", String "a" (String dquote "b"));
                        ("class", "ads_opt")] [NavigableString "x"] in
  str cell = "<td class=" +:+ String dquote "ads_opt" +:+ String dquote " title='a"
               +:+ String dquote "b'>x</td>"
  ∧ double_quoted "td" [("title", String "a" (String dquote "b"));
                        ("class", "ads_opt")] = false
  ∧ table_field (str cell) = Raise IndexError.
Proof. split_and!; reflexivity. Qed.

End CarvingMore.

Section ExtractionMore.

Variable requests_get : string → option string.
Variable BeautifulSoup : string → node.

Local Abbreviation extract := (get_msg_table_info requests_get BeautifulSoup).

Implicit Types (cells : list node) (fields acc : list string).

Lemma for_acc_add_field_Ok_inv cells acc r :
  for_acc cells add_field acc = Ok r →
  ∃ fields, r = acc ++ fields ∧ Forall2 field_of cells fields.
Proof.
  revert acc. induction cells as [|data cells IH]; intros acc; simpl.
  - intros [= <-]. exists []. by rewrite app_nil_r.
  - unfold add_field at 1.
    destruct (table_field (str data)) as [name|e] eqn:Hd; [|done].
    intros (fields & -> & Hfields)%IH. exists (name :: fields).
    split; [by rewrite <- app_assoc | by constructor].
Qed.

Lemma for_acc_add_field_Raise_inv cells acc e :
  for_acc cells add_field acc = Raise e →
  e = IndexError ∧ ∃ data, data ∈ cells ∧ ¬ carvable data.
Proof.
  revert acc. induction cells as [|data cells IH]; intros acc; simpl; [done|].
  unfold add_field at 1.
  destruct (table_field (str data)) as [name|e'] eqn:Hd.
  - intros (-> & data' & Hin & Hnc)%IH. split; [done|].
    exists data'. split; [by right | done].
  - intros [= <-]. split; [by eapply table_field_raise|].
    exists data. split; [by left|].
    unfold carvable. rewrite <- table_field_ok_iff. by rewrite Hd.
Qed.

(** X6.  Extraction returns a sequence exactly when the page is fetched,
    the table is found and every matched cell yields a field; the sequence
    then holds the fields of the matched cells, one for one, in document
    order. *)
Theorem get_msg_table_info_Ok (msg_url td_class : string) (fields : list string) :
  extract msg_url td_class = Ok fields ↔
  ∃ content table,
    requests_get msg_url = Some content
    ∧ find "table" (attr_eq "id" "page_main") (BeautifulSoup content) = Some table
    ∧ Forall2 field_of (find_all "td" (has_class td_class) table) fields.
Proof.
  split.
  - unfold get_msg_table_info.
    destruct (requests_get msg_url) as [content|]; [|done].
    destruct (find _ _ _) as [table|] eqn:Htable; [|done].
    intros (fields' & -> & Hfields)%for_acc_add_field_Ok_inv.
    by exists content, table.
  - intros (content & table & Hget & Htable & Hfields).
    rewrite (get_msg_table_info_table _ _ _ _ content table) by done.
    by apply (for_acc_add_field_ok _ fields []).
Qed.

(** X5.  Extraction raises in three cases and no other: the request
    raises; the page has no table with the id [page_main]; the markup of
    some matched cell lacks the separator of the first cut. *)
Theorem get_msg_table_info_Raise (msg_url td_class : string) (e : exn) :
  extract msg_url td_class = Raise e ↔
  (requests_get msg_url = None ∧ e = RequestException)
  ∨ (∃ content,
       requests_get msg_url = Some content
       ∧ find "table" (attr_eq "id" "page_main") (BeautifulSoup content) = None
       ∧ e = AttributeError)
  ∨ (∃ content table data,
       requests_get msg_url = Some content
       ∧ find "table" (attr_eq "id" "page_main") (BeautifulSoup content)
         = Some table
       ∧ data ∈ find_all "td" (has_class td_class) table
       ∧ ¬ carvable data
       ∧ e = IndexError).
Proof.
  split.
  - unfold get_msg_table_info.
    destruct (requests_get msg_url) as [content|]; [|intros [= <-]; by left].
    destruct (find _ _ _) as [table|] eqn:Htable.
    + intros (-> & data & Hin & Hnc)%for_acc_add_field_Raise_inv.
      right; right. by exists content, table, data.
    + intros [= <-]. right; left. by exists content.
  - intros [[Hget ->] | [(content & Hget & Htable & ->)
                        | (content & table & data & Hget & Htable & Hin & Hnc & ->)]].
    + by apply get_msg_table_info_no_page.
    + by eapply get_msg_table_info_no_table.
    + rewrite (get_msg_table_info_table _ _ _ _ content table) by done.
      by eapply for_acc_add_field_raise.
Qed.

End ExtractionMore.

(* ================================================================== *)
(** ** Further properties: the report writer *)
(* ================================================================== *)

Section WriterMore.

Implicit Types (fs : files) (text file_name : string).

(** X7.  Two writes to one file amount to one write of the two texts put
    together. *)
Theorem write_line_twice (text1 text2 file_name : string) (fs : files) :
  (write_line text1 file_name ;; write_line text2 file_name) fs
  = write_line (text1 +:+ text2) file_name fs.
Proof.
  unfold mbind, M_bind, bind, write_line.
  rewrite lookup_insert_eq, insert_insert_eq. simpl.
  by rewrite str_app_assoc.
Qed.



End WriterMore.

(* ================================================================== *)
(** ** Further properties: the orchestrator *)
(* ================================================================== *)

Section PairsMore.

Implicit Types (fs : files) (names values extra : list string).

Lemma main_pairs_closed names values fs :
  main_pairs names values fs
  = (if decide (pair_rounds names ≤ length values) then Ok tt
     else Raise IndexError,
     written (pair_lines names values) fs).
Proof.
  case_decide; [by apply main_pairs_ok | apply main_pairs_raise; lia].
Qed.

Lemma pair_rounds_snoc names last : pair_rounds (names ++ [last]) = length names.
Proof. rewrite pair_rounds_eq, length_app. simpl. lia. Qed.

Lemma pair_lines_snoc names last values :
  pair_lines (names ++ [last]) values = zip_with pair_line names values.
Proof. unfold pair_lines. by rewrite pair_rounds_snoc, take_app_length. Qed.

(** X12.  The inner loop never reads the last name, and it reads the
    values only below the position of the last name: another last name, or
    further values behind enough values, change nothing of what it does. *)
Theorem main_pairs_ignores (names values extra : list string)
    (last1 last2 : string) (fs : files) :
  main_pairs (names ++ [last1]) values fs
  = main_pairs (names ++ [last2]) values fs
  ∧ (length names ≤ length values →
     main_pairs (names ++ [last1]) (values ++ extra) fs
     = main_pairs (names ++ [last1]) values fs).
Proof.
  rewrite !main_pairs_closed, !pair_rounds_snoc, !pair_lines_snoc. split; [done|].
  intros Hlen. rewrite length_app, !decide_True by lia. do 2 f_equal.
  rewrite <- (zip_with_take_r' _ (length values) names (values ++ extra))
    by (rewrite length_app; lia).
  by rewrite take_app_length.
Qed.

Lemma main_pairs_ignores_witness :
  main_pairs (["Iela:"] ++ ["Istabas:"]) (["Skolas 1"] ++ ["2"; "3"]) ∅
  = main_pairs (["Iela:"] ++ ["Istabas:"]) ["Skolas 1"] ∅.
Proof.
  apply (main_pairs_ignores ["Iela:"] ["Skolas 1"] ["2"; "3"]
           "Istabas:" "Istabas:" ∅).
  simpl. lia.
Defined.

End PairsMore.

Section RunMore.

Variable requests_get : string → option string.
Variable BeautifulSoup : string → node.

Local Abbreviation extract := (get_msg_table_info requests_get BeautifulSoup).
Local Abbreviation listing := (main_listing requests_get BeautifulSoup).
Local Abbreviation run := (main requests_get BeautifulSoup).
Local Abbreviation outcome := (listing_outcome requests_get BeautifulSoup).
Local Abbreviation ok := (all_ok requests_get BeautifulSoup).

Implicit Types (fs : files) (urls names values price : list string).

(** A round decides what it writes and how it ends without looking at the
    file system. *)
Lemma main_listing_written urls i :
  ∃ r lines, ∀ fs, listing urls i fs = (r, written lines fs).
Proof.
  destruct (urls !! i) as [url|] eqn:Hurl.
  - exists (outcome url).1, (outcome url).2. intros fs.
    by apply main_listing_outcome.
  - exists (Raise IndexError), []. intros fs.
    apply main_listing_out_of_range. by apply lookup_ge_None.
Qed.

Lemma for_in_listings_written urls (rounds : list nat) :
  ∃ r lines, ∀ fs, for_in rounds (listing urls) fs = (r, written lines fs).
Proof.
  induction rounds as [|i rounds (r & lines & IH)].
  - by exists (Ok tt), [].
  - destruct (main_listing_written urls i) as ([[]|e] & lines_i & Hi).
    + exists r, (lines_i ++ lines). intros fs. cbn [for_in].
      unfold mbind at 1, M_bind at 1, bind at 1.
      by rewrite Hi, IH, written_app.
    + exists (Raise e), lines_i. intros fs. cbn [for_in].
      unfold mbind at 1, M_bind at 1, bind at 1. by rewrite Hi.
Qed.

(** X9.  Whatever the web returns and however the run ends, the run only
    appends to the report: what the report held stays in front, no other
    file changes, and neither the outcome nor the lines written depend on
    what the files held. *)
Theorem main_appends_only :
  ∃ r lines, ∀ fs,
    run fs = (r, written lines fs)
    ∧ contents (run fs).2 = contents fs +:+ concat_str lines
    ∧ ∀ file_name, file_name ≠ report_file →
                   (run fs).2 !! file_name = fs !! file_name.
Proof.
  assert (∃ r lines, ∀ fs, run fs = (r, written lines fs))
    as (r & lines & Hrun).
  { destruct (get_bs_object requests_get BeautifulSoup flats_ogre)
      as [ogre_object|e] eqn:Hidx.
    - destruct (for_in_listings_written
                  (find_single_page_urls ogre_object) (seq 0 10))
        as (r & lines & Hloop).
      exists r, lines. intros fs. by rewrite main_unfold, Hidx.
    - exists (Raise e), []. intros fs. by rewrite main_unfold, Hidx. }
  exists r, lines. intros fs. rewrite Hrun. split_and!.
  - done.
  - apply contents_written.
  - intros file_name Hne. by apply written_other.
Qed.

Lemma for_in_listings_Ok_inv urls n fs fs' :
  for_in (seq 0 n) (listing urls) fs = (Ok tt, fs') →
  n ≤ length urls ∧ ok (take n urls).
Proof.
  revert fs'. induction n as [|n IH]; intros fs'.
  - intros _. split; [lia | constructor].
  - rewrite seq_S, for_in_app, Nat.add_0_l.
    destruct (for_in (seq 0 n) (listing urls) fs) as [[[]|e] fs1] eqn:Hn;
      [|done].
    destruct (IH fs1 eq_refl) as [Hlen Hok].
    rewrite for_in_singleton.
    destruct (urls !! n) as [url|] eqn:Hurl.
    + rewrite (main_listing_outcome _ _ _ _ url) by done. intros [= Hurl_ok _].
      split; [by apply lookup_lt_is_Some_1|].
      rewrite (take_S_r _ _ _ Hurl). apply Forall_app. split; [done|].
      by constructor.
    + rewrite main_listing_out_of_range by (by apply lookup_ge_None). done.
Qed.

(** X10.  The run ends normally exactly when the index page is fetched,
    discovery yields at least ten addresses, and each of the first ten
    listings has its three extractions return, a value for every name but
    the last, and a price. *)
Theorem main_Ok_iff (fs : files) :
  (∃ fs', run fs = (Ok tt, fs')) ↔
  ∃ ogre_object,
    get_bs_object requests_get BeautifulSoup flats_ogre = Ok ogre_object
    ∧ 10 ≤ length (find_single_page_urls ogre_object)
    ∧ Forall (λ url, ∃ names values price,
                extract url "ads_opt_name" = Ok names
                ∧ extract url "ads_opt" = Ok values
                ∧ extract url "ads_price" = Ok price
                ∧ length names - 1 ≤ length values
                ∧ price ≠ [])
             (take 10 (find_single_page_urls ogre_object)).
Proof.
  rewrite main_unfold. split.
  - intros [fs' Hrun].
    destruct (get_bs_object requests_get BeautifulSoup flats_ogre)
      as [ogre_object|e]; [|done].
    apply for_in_listings_Ok_inv in Hrun as [Hlen Hok].
    exists ogre_object. split_and!; [done | done |].
    eapply Forall_impl; [exact Hok|]. intros url. by apply listing_outcome_ok.
  - intros (ogre_object & -> & Hlen & Hok).
    eexists. apply for_in_listings_ok; [done|].
    eapply Forall_impl; [exact Hok|]. intros url. by apply listing_outcome_ok.
Qed.

(** X11.  A round ends normally exactly when the address exists, the three
    extractions return, there is a value for every name but the last and
    there is a price; it has then appended the header line, the address
    line, one paired line for each name but the last, and one price line
    made of the first price entry. *)
Theorem main_listing_Ok_iff (urls : list string) (i : nat) (fs fs' : files) :
  listing urls i fs = (Ok tt, fs') ↔
  ∃ url names values first_price more,
    urls !! i = Some url
    ∧ extract url "ads_opt_name" = Ok names
    ∧ extract url "ads_opt" = Ok values
    ∧ extract url "ads_price" = Ok (first_price :: more)
    ∧ length names - 1 ≤ length values
    ∧ fs' = written ([report_header; url +:+ nl]
                     ++ zip_with pair_line (take (length names - 1) names) values
                     ++ [price_line first_price]) fs.
Proof.
  split.
  - destruct (urls !! i) as [url|] eqn:Hurl.
    + rewrite (main_listing_outcome _ _ _ _ url) by done.
      unfold listing_outcome.
      destruct (extract url "ads_opt_name") as [names|] eqn:Hn; [|done].
      destruct (extract url "ads_opt") as [values|] eqn:Hv; [|done].
      destruct (extract url "ads_price") as [[|first_price more]|] eqn:Hp;
        cbn [fst snd]; unfold listing_result, listing_lines, pair_lines;
        rewrite ?pair_rounds_eq; repeat case_decide; try done.
      intros [= <-]. by exists url, names, values, first_price, more.
    + rewrite main_listing_out_of_range by (by apply lookup_ge_None). done.
  - intros (url & names & values & first_price & more & Hurl & Hn & Hv & Hp & Hlen & ->).
    rewrite (main_listing_extracted _ _ _ _ url _ _ _ _ Hurl Hn Hv Hp).
    unfold listing_result, listing_lines, pair_lines.
    rewrite pair_rounds_eq. by rewrite !decide_True by done.
Qed.

End RunMore.

(* ================================================================== *)
(** ** Further properties: the newest object of a bucket *)
(* ================================================================== *)

Import Downloader.

Section NewestObject.

Implicit Types (o m newest : s3_object) (objs before after : list s3_object)
  (t v : Z).

Local Open Scope Z_scope.

Lemma max_go_sound objs m v o :
  max_go m v objs = Some o → modified_at m v → first_newest (m :: objs) o.
Proof.
  revert m v. induction objs as [|item objs IH]; intros m v; simpl.
  - intros [= <-] Hm. exists [], [], v. by repeat split.
  - destruct (LastModified item) as [val|] eqn:Hitem; [|done].
    destruct (Z.ltb_spec v val) as [Hlt|Hge]; intros Hgo Hm.
    + destruct (IH item val Hgo Hitem) as (before & after & t & Heq & Ht & Hb & Ha).
      exists (m :: before), after, t. split_and!; [by rewrite Heq | done | | done].
      constructor; [|done]. exists v. split; [done|].
      destruct before as [|item' before]; simplify_eq/=.
      * unfold modified_at in Ht. simplify_eq. done.
      * apply Forall_cons in Hb as [(t' & Ht' & Hlt') _].
        unfold modified_at in Ht'. simplify_eq. lia.
    + destruct (IH m v Hgo Hm) as (before & after & t & Heq & Ht & Hb & Ha).
      destruct before as [|m' before]; simplify_eq/=.
      * exists [], (item :: after), t. split_and!; [done | done | done |].
        constructor; [|done]. exists val. split; [done|].
        unfold modified_at in Ht, Hm. simplify_eq. done.
      * apply Forall_cons in Hb as [(t' & Ht' & Hlt') Hb].
        unfold modified_at in Ht', Hm. simplify_eq.
        exists (m' :: item :: before), after, t.
        split_and!; [done | done | | done].
        constructor; [by exists v|]. constructor; [|done].
        exists val. split; [done | lia].
Qed.

Lemma max_go_is_Some objs m v :
  Forall (λ o, is_Some (LastModified o)) objs → is_Some (max_go m v objs).
Proof.
  intros H. revert m v. induction H as [|item objs [val Hitem] _ IH];
    intros m v; simpl; [done|].
  rewrite Hitem. by destruct (v <? val).
Qed.

Lemma max_go_None objs m v :
  max_go m v objs = None ↔ ∃ o, o ∈ objs ∧ LastModified o = None.
Proof.
  revert m v. induction objs as [|item objs IH]; intros m v; simpl.
  - split; [done|]. intros (o & Hin & _). by apply elem_of_nil in Hin.
  - destruct (LastModified item) as [val|] eqn:Hitem.
    + destruct (v <? val); rewrite IH; split.
      * intros (o & Hin & Ho). exists o. split; [by right | done].
      * intros (o & [->|Hin]%elem_of_cons & Ho); [congruence | eauto].
      * intros (o & Hin & Ho). exists o. split; [by right | done].
      * intros (o & [->|Hin]%elem_of_cons & Ho); [congruence | eauto].
    + split; [|done]. intros _. exists item. split; [by left | done].
Qed.

Lemma first_newest_modified objs newest :
  first_newest objs newest → Forall (λ o, is_Some (LastModified o)) objs.
Proof.
  intros (before & after & t & -> & Ht & Hb & Ha).
  apply Forall_app. split; [|constructor].
  - eapply Forall_impl; [exact Hb|]. intros o (t' & Ht' & _). by exists t'.
  - by exists t.
  - eapply Forall_impl; [exact Ha|]. intros o (t' & Ht' & _). by exists t'.
Qed.

(** Of two splittings, the one with the shorter front cannot be right. *)
Lemma first_newest_not_longer before1 o1 after1 t1 before2 o2 after2 t2 :
  before1 ++ o1 :: after1 = before2 ++ o2 :: after2 →
  modified_at o1 t1 → modified_at o2 t2 →
  Forall (λ o', ∃ t', modified_at o' t' ∧ t' < t2) before2 →
  Forall (λ o', ∃ t', modified_at o' t' ∧ t' ≤ t1) after1 →
  ¬ (length before1 < length before2)%nat.
Proof.
  intros Heq H1 H2 Hb2 Ha1 Hlen.
  assert ((before1 ++ o1 :: after1) !! length before1 = Some o1) as Hl1
    by by apply list_lookup_middle.
  rewrite Heq, lookup_app_l in Hl1 by done.
  apply list_elem_of_lookup_2 in Hl1.
  rewrite Forall_forall in Hb2. destruct (Hb2 _ Hl1) as (t' & Ht' & Hlt).
  assert ((before2 ++ o2 :: after2) !! length before2 = Some o2) as Hl2
    by by apply list_lookup_middle.
  rewrite <- Heq, lookup_app_r in Hl2 by lia.
  destruct (length before2 - length before1)%nat as [|k] eqn:Hk; [lia|].
  simpl in Hl2. apply list_elem_of_lookup_2 in Hl2.
  rewrite Forall_forall in Ha1. destruct (Ha1 _ Hl2) as (t'' & Ht'' & Hle).
  unfold modified_at in *. simplify_eq. lia.
Qed.

Lemma first_newest_unique objs o1 o2 :
  first_newest objs o1 → first_newest objs o2 → o1 = o2.
Proof.
  intros (b1 & a1 & t1 & -> & H1 & Hb1 & Ha1) (b2 & a2 & t2 & Heq & H2 & Hb2 & Ha2).
  pose proof (first_newest_not_longer _ _ _ _ _ _ _ _ Heq H1 H2 Hb2 Ha1).
  pose proof (first_newest_not_longer _ _ _ _ _ _ _ _ (eq_sym Heq) H2 H1 Hb1 Ha2).
  apply app_inj_1 in Heq as [_ Heq]; [|lia]. by simplify_eq.
Qed.

Lemma max_by_last_modified_first_newest objs o :
  max_by_last_modified objs = Some o ↔ first_newest objs o.
Proof.
  split.
  - destruct objs as [|item objs]; [done|]. simpl.
    destruct (LastModified item) as [val|] eqn:Hitem; [|done].
    intros Hgo. by eapply max_go_sound.
  - intros Hnewest. pose proof (first_newest_modified _ _ Hnewest) as Hall.
    destruct objs as [|item objs].
    { destruct Hnewest as (before & after & t & Heq & _). by destruct before. }
    apply Forall_cons in Hall as [[val Hitem] Hall]. simpl. rewrite Hitem.
    destruct (max_go_is_Some objs item val Hall) as [o' Ho']. rewrite Ho'.
    f_equal. eapply first_newest_unique; [|done]. by eapply max_go_sound.
Qed.

Variable list_objects_v2 : string → option (option (list s3_object)).

(** X13.  [get_last_file_name] returns a name exactly when the listing
    returns objects that all carry a modification time and the name is the
    key of the newest of them, the first one in the order of the listing
    among equally new ones. *)
Theorem get_last_file_name_Some (s3_bucket_name name : string) :
  get_last_file_name list_objects_v2 s3_bucket_name = Some name ↔
  ∃ objs newest,
    list_objects_v2 s3_bucket_name = Some (Some objs)
    ∧ first_newest objs newest
    ∧ Key newest = Some name.
Proof.
  unfold get_last_file_name. split.
  - destruct (list_objects_v2 s3_bucket_name) as [[objs|]|]; simpl; [|done..].
    destruct objs as [|item objs]; [done|].
    destruct (max_by_last_modified (item :: objs)) as [newest|] eqn:Hmax;
      [|done].
    intros Hkey. exists (item :: objs), newest.
    by rewrite <- max_by_last_modified_first_newest.
  - intros (objs & newest & -> & Hnewest & Hkey). simpl.
    apply max_by_last_modified_first_newest in Hnewest as Hmax.
    destruct objs as [|item objs]; [done|]. by rewrite Hmax.
Qed.

(** X14.  [get_last_file_name] returns [None] in these cases and no other:
    the listing raises; the response has no contents or empty contents;
    some object carries no modification time; the newest object carries no
    key. *)
Theorem get_last_file_name_None (s3_bucket_name : string) :
  get_last_file_name list_objects_v2 s3_bucket_name = None ↔
  list_objects_v2 s3_bucket_name = None
  ∨ list_objects_v2 s3_bucket_name = Some None
  ∨ list_objects_v2 s3_bucket_name = Some (Some [])
  ∨ ∃ objs, list_objects_v2 s3_bucket_name = Some (Some objs)
            ∧ ((∃ o, o ∈ objs ∧ LastModified o = None)
               ∨ (∃ newest, first_newest objs newest ∧ Key newest = None)).
Proof.
  unfold get_last_file_name.
  destruct (list_objects_v2 s3_bucket_name) as [[objs|]|]; simpl;
    [|naive_solver..].
  destruct objs as [|item objs]; [naive_solver|].
  destruct (max_by_last_modified (item :: objs)) as [newest|] eqn:Hmax.
  - apply max_by_last_modified_first_newest in Hmax as Hnewest. split.
    + intros Hkey. do 3 right. exists (item :: objs). split; [done|]. right.
      by exists newest.
    + intros [?|[?|[?|(objs' & [= <-] & [(o & Hin & Ho)|(newest' & Hn' & Hkey)])]]];
        try done.
      * apply first_newest_modified in Hnewest.
        rewrite Forall_forall in Hnewest. destruct (Hnewest o Hin). congruence.
      * by rewrite (first_newest_unique _ _ _ Hnewest Hn').
  - split; [|done]. intros _. do 3 right. exists (item :: objs).
    split; [done|]. left. simpl in Hmax.
    destruct (LastModified item) as [val|] eqn:Hitem.
    + apply max_go_None in Hmax as (o & Hin & Ho). exists o.
      split; [by right | done].
    + exists item. split; [by left | done].
Qed.

End NewestObject.

(* ================================================================== *)
(** ** Further properties: a round that raises *)
(* ================================================================== *)

Section RoundRaises.

Variable requests_get : string → option string.
Variable BeautifulSoup : string → node.

Local Abbreviation extract := (get_msg_table_info requests_get BeautifulSoup).
Local Abbreviation listing := (main_listing requests_get BeautifulSoup).

Implicit Types (fs : files) (urls names values price : list string).

(** X15.  There is no rollback.  When the three extractions return and
    the round then raises, for want of a value or of a price, the header
    line, the address line and the paired lines written so far stay in the
    report. *)
Theorem main_listing_partial (urls : list string) (i : nat) (url : string)
    (names values price : list string) (fs : files) :
  urls !! i = Some url →
  extract url "ads_opt_name" = Ok names →
  extract url "ads_opt" = Ok values →
  extract url "ads_price" = Ok price →
  length values < length names - 1 ∨ price = [] →
  listing urls i fs
  = (Raise IndexError,
     written ([report_header; url +:+ nl]
              ++ zip_with pair_line (take (length names - 1) names) values) fs).
Proof.
  intros Hurl Hn Hv Hp Hwant.
  rewrite (main_listing_extracted _ _ _ _ url _ _ _ _ Hurl Hn Hv Hp).
  unfold listing_result, listing_lines, pair_lines. rewrite pair_rounds_eq.
  case_decide as Hlen.
  - destruct Hwant as [?| ->]; [lia|]. by rewrite app_nil_r.
  - by rewrite app_nil_r.
Qed.

(** X16.  Every request of a round comes before its first write.  When
    one of the three extractions raises, the round ends with the exception
    of the first one that does, in the order names, values, price, and it
    has written nothing. *)
Theorem main_listing_extraction_raises (urls : list string) (i : nat)
    (url : string) (e : exn) (fs : files) :
  urls !! i = Some url →
  extract url "ads_opt_name" = Raise e
  ∨ (is_ok (extract url "ads_opt_name") = true
     ∧ extract url "ads_opt" = Raise e)
  ∨ (is_ok (extract url "ads_opt_name") = true
     ∧ is_ok (extract url "ads_opt") = true
     ∧ extract url "ads_price" = Raise e) →
  listing urls i fs = (Raise e, fs).
Proof.
  intros Hurl Hraise.
  rewrite (main_listing_outcome _ _ _ _ url) by done. unfold listing_outcome.
  destruct Hraise as [-> | [[Hn ->] | (Hn & Hv & ->)]].
  - done.
  - by destruct (extract url "ads_opt_name").
  - by destruct (extract url "ads_opt_name"), (extract url "ads_opt").
Qed.

End RoundRaises.

Lemma main_listing_partial_witness :
  let web := Sample.serve Sample.index3 Sample.detail_empty in
  main_listing Some web ["u"] 0 ∅
  = (Raise IndexError, written ([report_header; "u" +:+ nl] ++ []) ∅).
Proof.
  intros web.
  apply (main_listing_partial Some web ["u"] 0 "u" [] [] [] ∅);
    [reflexivity.. | by right].
Defined.

Lemma main_listing_extraction_raises_witness :
  let web := Sample.serve Sample.index3 Sample.detail_quoted in
  main_listing Some web ["u"] 0 ∅ = (Raise IndexError, ∅).
Proof.
  intros web.
  apply (main_listing_extraction_raises Some web ["u"] 0 "u" IndexError ∅);
    [reflexivity|].
  right; left. split; reflexivity.
Defined.
